(** * bfo: an optimising compiler and interpreter for the eight-symbol tape
    language, embedded in Rocq.

    The development follows [src/main.rs]: [Options], [Instr] and [Op] are the
    Rust structs and enum, [compile] and [optimise_loop] the single-pass
    compiler with its loop rewrites, and [run] the dispatch loop over a
    30 000-byte tape.

    Conventions of the embedding:
    - [u8] values are [Z] in [0, 255] with their wrap-around written out;
      [usize] values are [Z] (or [nat] for vector indices) in [0, 2^64);
      [i32] offsets are [Z] (the code never gets near 2^31 instructions, so
      their overflow is not modelled).
    - A Rust panic (index out of bounds, arithmetic overflow in a debug build,
      [panic!]) is the [Panicked] outcome of the [result] monad below.
    - A [Vec] is a list; [push] appends at the end.  The [jumps] stack is a
      list whose head is the top of the stack. *)

From Stdlib Require Import String Ascii ZArith Lia.
From stdpp Require Import base list.

Open Scope Z_scope.

(** ** Panicking computations *)

Inductive result (A : Type) : Type :=
| Done (a : A)
| Panicked.
Arguments Done {A} a.
Arguments Panicked {A}.

Definition rbind {A B} (m : result A) (k : A -> result B) : result B :=
  match m with
  | Done a => k a
  | Panicked => Panicked
  end.

Notation "'let*' x := m 'in' k" := (rbind m (fun x => k))
  (at level 200, x name, m at level 100, k at level 200).

(** [v[i]] on a [Vec]: bounds-checked. *)
Definition vec_get {A} (v : list A) (i : nat) : result A :=
  match v !! i with
  | Some x => Done x
  | None => Panicked
  end.

(** [v[i] = f(v[i])] on a [Vec]: bounds-checked. *)
Definition vec_update {A} (v : list A) (i : nat) (f : A -> A) : result (list A) :=
  match v !! i with
  | Some x => Done (<[i := f x]> v)
  | None => Panicked
  end.

(** ** Data model (lines 6-22 and 53-76) *)

Record Options := mkOptions {
  fuse_adjacent : bool;
  fuse_set_add : bool;
  loop_set_zero : bool;
  loop_copy_multiply : bool;
  loop_seek_lr : bool;
  loop_set_jump : bool;
}.

(** [Set] is a keyword of Rocq: the variant [Op::Set] is [Set_]. *)
Inductive Op :=
| Add | Sub | Left | Right | PutCh | GetCh | J | JZ | JNZ | Set_
| CMul | CNMul | SeekL | SeekR.

#[global] Instance Op_eq_dec : EqDecision Op.
Proof. solve_decision. Defined.

Definition op_eqb (a b : Op) : bool := bool_decide (a = b).

Record Instr := mkInstr {
  opcode : Op;
  arg : Z;   (* u8 *)
  off : Z;   (* i32 *)
}.

Definition set_arg (a : Z) (i : Instr) : Instr := mkInstr (opcode i) a (off i).
Definition set_off (o : Z) (i : Instr) : Instr := mkInstr (opcode i) (arg i) o.

(** The options of [main] (lines 25-32). *)
Definition default_options : Options :=
  mkOptions true true true true false true.

(** Every optimisation switched off. *)
Definition no_options : Options :=
  mkOptions false false false false false false.

(** Fusion of adjacent operations and the set-zero rewrite only. *)
Definition set_zero_options : Options :=
  mkOptions true false true false false false.

(** u8 [wrapping_add], [wrapping_sub], [wrapping_mul]. *)
Definition u8_wrap (z : Z) : Z := z mod 256.
Definition wrapping_add (a b : Z) : Z := u8_wrap (a + b).
Definition wrapping_sub (a b : Z) : Z := u8_wrap (a - b).
Definition wrapping_mul (a b : Z) : Z := u8_wrap (a * b).

(** ** The compiler (lines 78-184) *)

Definition opcode_of (c : ascii) : option Op :=
  match c with
  | "+"%char => Some Add
  | "-"%char => Some Sub
  | "<"%char => Some Left
  | ">"%char => Some Right
  | "."%char => Some PutCh
  | ","%char => Some GetCh
  | "["%char => Some JZ
  | "]"%char => Some JNZ
  | _ => None
  end.

(** [code[lo..hi]] as a list (an empty range when [hi <= lo]). *)
Definition slice {A} (v : list A) (lo hi : nat) : list A :=
  take (hi - lo) (drop lo v).

(** *** [optimise_loop] (lines 186-344)

    [code] is the instruction vector right after the [JNZ] of the loop whose
    [JZ] sits at [start] has been pushed; the body is [code[start+1 .. len-1]]. *)

Section OptimiseLoop.
Variable code : list Instr.
Variable start : nat.
Variable opts : Options.

Definition body : list Instr := slice code (start + 1) (length code - 1).

(** The [for] loop of [set_zero]: [delta] moves by one per [Add] or [Sub]
    instruction; any other opcode returns [None]. *)
Fixpoint set_zero_delta (delta : Z) (l : list Instr) : option Z :=
  match l with
  | [] => Some delta
  | i :: l' =>
      match opcode i with
      | Add => set_zero_delta (delta + 1) l'
      | Sub => set_zero_delta (delta - 1) l'
      | _ => None
      end
  end.

Definition set_zero : option (list Instr) :=
  if negb (loop_set_zero opts) then None else
  match set_zero_delta 0 body with
  | None => None
  | Some delta =>
      if negb (delta =? 0) then Some [mkInstr Set_ 0 0] else None
  end.

(** The [for] loop of [copy_multiply], threading [(fst_del, deltas, off)];
    the arms are tried in the order of the Rust [match]. *)
Fixpoint copy_multiply_walk (fst_del : Z) (deltas : list (Z * Z)) (o : Z)
    (l : list Instr) : option (Z * list (Z * Z) * Z) :=
  match l with
  | [] => Some (fst_del, deltas, o)
  | i :: l' =>
      match opcode i with
      | Right => copy_multiply_walk fst_del deltas (o + arg i) l'
      | Left =>
          if o >=? arg i then copy_multiply_walk fst_del deltas (o - arg i) l'
          else None
      | Add =>
          if negb (o =? 0) then copy_multiply_walk fst_del (deltas ++ [(arg i, o)]) o l'
          else copy_multiply_walk (fst_del + arg i) deltas o l'
      | Sub =>
          if negb (o =? 0) then copy_multiply_walk fst_del (deltas ++ [(- arg i, o)]) o l'
          else copy_multiply_walk (fst_del - arg i) deltas o l'
      | _ => None
      end
  end.

(** [del as u8] for the [i32] value [del]. *)
Definition cm_instr (d : Z * Z) : Instr :=
  let '(del, o) := d in
  mkInstr (if del <? 0 then CNMul else CMul)
          (u8_wrap (if del <? 0 then - del else del)) o.

Definition copy_multiply : option (list Instr) :=
  if negb (loop_copy_multiply opts) then None else
  if (length code <=? start + 2)%nat then None else
  match copy_multiply_walk 0 [] 0 body with
  | None => None
  | Some (fst_del, deltas, o) =>
      if negb (o =? 0) then None else
      if negb (fst_del =? -1) then None else
      Some (map cm_instr deltas ++ [mkInstr Set_ 0 0])
  end.

Definition seek_lr : result (option (list Instr)) :=
  if negb (loop_seek_lr opts) then Done None else
  if negb (length code =? start + 3)%nat then Done None else
  let* i := vec_get code (start + 1) in
  Done (match opcode i with
        | Left => if arg i =? 1 then Some [mkInstr SeekL 0 0] else None
        | Right => if arg i =? 1 then Some [mkInstr SeekR 0 0] else None
        | _ => None
        end).

(** [code[start - 1]] is read before the [start > 0] test: with
    [start = 0] the [usize] subtraction underflows (a panic in a debug
    build; an out-of-bounds index, hence a panic, in a release build). *)
Definition set_jump : result (option (list Instr)) :=
  if negb (loop_set_jump opts) then Done None else
  let* before1 := (if (start =? 0)%nat then Panicked else vec_get code (start - 1)) in
  let* before2 := (if (length code <? 2)%nat then Panicked
                   else vec_get code (length code - 2)) in
  if (0 <? start)%nat && op_eqb (opcode before1) Set_ && (arg before1 =? 0) then
    Done (Some [])
  else if op_eqb (opcode before2) Set_ then
    let instrs := slice code start (length code - 2) in
    if arg before2 =? 0 then
      let* instrs' := vec_update instrs 0 (fun i => set_off (off i - 2) i) in
      Done (Some instrs')
    else
      let* last := vec_get code (length code - 1) in
      Done (Some (instrs ++ [mkInstr J 0 (off last)]))
  else Done None.

End OptimiseLoop.

(** [Option::or]. *)
Definition option_or {A} (a b : option A) : option A :=
  match a with Some _ => a | None => b end.

(** [set_zero().or(copy_multiply().or(seek_lr().or(set_jump())))]: the
    argument of [or] is evaluated eagerly, so all four closures run. *)
Definition optimise_loop (code : list Instr) (start : nat) (opts : Options)
    : result (option (list Instr)) :=
  let a := set_zero code start opts in
  let b := copy_multiply code start opts in
  let* c := seek_lr code start opts in
  let* d := set_jump code start opts in
  Done (option_or a (option_or b (option_or c d))).

(** *** [compile] (lines 92-184) *)

Record CState := mkCState {
  instrs : list Instr;
  jumps : list nat;          (* head = top of the stack *)
  accumulating : option Op;
  accumulated : Z;           (* u8 *)
}.

Definition cstate_init : CState := mkCState [] [] None 0.

(** Storing the squashed instruction [acc_op x accumulated] (lines 103-122). *)
Definition store_acc (opts : Options) (instrs : list Instr) (acc_op : Op)
    (accumulated : Z) : result (list Instr) :=
  let acc_instr := mkInstr acc_op accumulated 0 in
  if (0 <? length instrs)%nat && fuse_set_add opts then
    let prior_idx := (length instrs - 1)%nat in
    let* prior := vec_get instrs prior_idx in
    match opcode prior, acc_op with
    | Set_, Add => vec_update instrs prior_idx
                     (set_arg (wrapping_add (arg prior) accumulated))
    | Set_, Sub => vec_update instrs prior_idx
                     (set_arg (wrapping_sub (arg prior) accumulated))
    | _, _ => Done (instrs ++ [acc_instr])
    end
  else Done (instrs ++ [acc_instr]).

(** Lines 101-126: flush the accumulator when the operation changes, the
    count reached 255, or fusion is off. *)
Definition flush (opts : Options) (op : Op) (st : CState) : result CState :=
  match accumulating st with
  | Some acc_op =>
      if negb (op_eqb acc_op op) || (accumulated st =? 255) || negb (fuse_adjacent opts)
      then
        let* instrs' := store_acc opts (instrs st) acc_op (accumulated st) in
        Done (mkCState instrs' (jumps st) None 0)
      else Done st
  | None => Done st
  end.

(** One iteration of the [for c in code.chars()] loop.  [Done None] is the
    early [return None]. *)
Definition compile_char (opts : Options) (st : CState) (c : ascii)
    : result (option CState) :=
  match opcode_of c with
  | None => Done (Some st)
  | Some op =>
      let* st1 := flush opts op st in
      match op with
      | Add | Sub | Left | Right | PutCh | GetCh =>
          (* [accumulated += 1] on a u8: overflow checked *)
          if accumulated st1 + 1 >? 255 then Panicked else
          Done (Some (mkCState (instrs st1) (jumps st1) (Some op) (accumulated st1 + 1)))
      | JZ =>
          Done (Some (mkCState (instrs st1 ++ [mkInstr JZ 0 0])
                               (length (instrs st1) :: jumps st1)
                               (accumulating st1) (accumulated st1)))
      | JNZ =>
          match jumps st1 with
          | [] => Done None
          | start :: js =>
              let o := Z.of_nat start - Z.of_nat (length (instrs st1)) in
              let instrs2 := instrs st1 ++ [mkInstr JNZ 0 o] in
              let* instrs3 := vec_update instrs2 start (set_off (- o)) in
              let* opt := optimise_loop instrs3 start opts in
              let instrs4 := match opt with
                             | Some optimised => take start instrs3 ++ optimised
                             | None => instrs3
                             end in
              Done (Some (mkCState instrs4 js (accumulating st1) (accumulated st1)))
          end
      | _ => Panicked
      end
  end.

Fixpoint compile_chars (opts : Options) (cs : list ascii) (st : CState)
    : result (option CState) :=
  match cs with
  | [] => Done (Some st)
  | c :: cs' =>
      let* r := compile_char opts st c in
      match r with
      | None => Done None
      | Some st' => compile_chars opts cs' st'
      end
  end.

(** [compile]: [Done (Some instrs)] is [Some(instrs)], [Done None] the
    bracket error, [Panicked] a panic. *)
Definition compile (code : string) (opts : Options) : result (option (list Instr)) :=
  let* r := compile_chars opts (list_ascii_of_string code) cstate_init in
  match r with
  | None => Done None
  | Some st =>
      let instrs' := match accumulating st with
                     | Some acc_op => instrs st ++ [mkInstr acc_op (accumulated st) 0]
                     | None => instrs st
                     end in
      Done (if (length (jumps st) =? 0)%nat then Some instrs' else None)
  end.

(** ** The interpreter (lines 346-420) *)

Definition tape_len : Z := 30000.
Definition usize_max : Z := 2 ^ 64 - 1.

(** [stdin] is a list of read outcomes: [Some b] a byte, [None] a failed
    read; the empty list is end of input, where every read fails. *)
Record State := mkState {
  ip : Z;                    (* usize *)
  dp : Z;                    (* usize *)
  mem : Z -> Z;              (* [u8; 30000], read through [mem_get] *)
  stdin : list (option Z);
  stdout : list Z;           (* bytes written so far *)
}.

Definition init_state (inp : list (option Z)) : State :=
  mkState 0 0 (fun _ => 0) inp [].

Definition in_tape (i : Z) : bool := (0 <=? i) && (i <? tape_len).

(** [memory[i]]: bounds-checked. *)
Definition mem_get (m : Z -> Z) (i : Z) : result Z :=
  if in_tape i then Done (m i) else Panicked.

(** [memory[i] = v]: bounds-checked. *)
Definition mem_set (m : Z -> Z) (i v : Z) : result (Z -> Z) :=
  if in_tape i then Done (fun k => if k =? i then v else m k) else Panicked.

(** [std::io::stdin().bytes().next().and_then(|r| r.ok())]. *)
Definition read_byte (inp : list (option Z)) : option Z * list (option Z) :=
  match inp with
  | [] => (None, [])
  | r :: inp' => (r, inp')
  end.

(** [print!("{}", b as char)]: the [char] with code point [b] is written in UTF-8. *)
Definition utf8_of_u8 (b : Z) : list Z :=
  if b <? 128 then [b]
  else [Z.lor 192 (Z.shiftr b 6); Z.lor 128 (Z.land b 63)].

(** [for _ in 0..arg { print!(...) }]. *)
Fixpoint put_ch (n : nat) (s : State) : result State :=
  match n with
  | O => Done s
  | S n' =>
      let* v := mem_get (mem s) (dp s) in
      put_ch n' (mkState (ip s) (dp s) (mem s) (stdin s) (stdout s ++ utf8_of_u8 v))
  end.

(** [for _ in 0..arg { if let Some(b) = read { memory[dp] = b } }]. *)
Fixpoint get_ch (n : nat) (s : State) : result State :=
  match n with
  | O => Done s
  | S n' =>
      let '(r, inp') := read_byte (stdin s) in
      match r with
      | Some b =>
          let* m' := mem_set (mem s) (dp s) b in
          get_ch n' (mkState (ip s) (dp s) m' inp' (stdout s))
      | None => get_ch n' (mkState (ip s) (dp s) (mem s) inp' (stdout s))
      end
  end.

(** [while memory[dp] > 0 { dp -= 1 }]: [dp -= 1] at [dp = 0] underflows. *)
Fixpoint seek_left (m : Z -> Z) (d : nat) : result nat :=
  let* v := mem_get m (Z.of_nat d) in
  if v >? 0 then
    match d with
    | O => Panicked
    | S d' => seek_left m d'
    end
  else Done d.

(** [while memory[dp] > 0 { dp += 1 }]; [fuel] exceeds the distance to the
    tape end, where [mem_get] panics, so it never runs out. *)
Fixpoint seek_right (m : Z -> Z) (fuel : nat) (d : Z) : result Z :=
  match fuel with
  | O => Panicked
  | S fuel' =>
      let* v := mem_get m d in
      if v >? 0 then seek_right m fuel' (d + 1) else Done d
  end.

(** [ip = (ip as i32 + off) as usize]. *)
Definition jump_target (ip off : Z) : Z := (ip + off) mod 2 ^ 64.

(** One iteration of the [while ip < code.len()] loop, including the
    trailing [ip += 1] (which overflows only after a jump to [usize::MAX]). *)
Definition step (code : list Instr) (s : State) : result State :=
  let* instr := vec_get code (Z.to_nat (ip s)) in
  let a := arg instr in
  let* s' :=
    match opcode instr with
    | Add =>
        let* v := mem_get (mem s) (dp s) in
        let* m' := mem_set (mem s) (dp s) (wrapping_add v a) in
        Done (mkState (ip s) (dp s) m' (stdin s) (stdout s))
    | Sub =>
        let* v := mem_get (mem s) (dp s) in
        let* m' := mem_set (mem s) (dp s) (wrapping_sub v a) in
        Done (mkState (ip s) (dp s) m' (stdin s) (stdout s))
    | Left => Done (mkState (ip s) (Z.max 0 (dp s - a)) (mem s) (stdin s) (stdout s))
    | Right => Done (mkState (ip s) (Z.min usize_max (dp s + a)) (mem s) (stdin s) (stdout s))
    | PutCh => put_ch (Z.to_nat a) s
    | GetCh => get_ch (Z.to_nat a) s
    | J => Done (mkState (jump_target (ip s) (off instr)) (dp s) (mem s) (stdin s) (stdout s))
    | JZ =>
        let* v := mem_get (mem s) (dp s) in
        if v =? 0
        then Done (mkState (jump_target (ip s) (off instr)) (dp s) (mem s) (stdin s) (stdout s))
        else Done s
    | JNZ =>
        let* v := mem_get (mem s) (dp s) in
        if negb (v =? 0)
        then Done (mkState (jump_target (ip s) (off instr)) (dp s) (mem s) (stdin s) (stdout s))
        else Done s
    | Set_ =>
        let* m' := mem_set (mem s) (dp s) a in
        Done (mkState (ip s) (dp s) m' (stdin s) (stdout s))
    | CMul =>
        let tgt := dp s + off instr in
        let* t := mem_get (mem s) tgt in
        let* v := mem_get (mem s) (dp s) in
        let* m' := mem_set (mem s) tgt (wrapping_add t (wrapping_mul v a)) in
        Done (mkState (ip s) (dp s) m' (stdin s) (stdout s))
    | CNMul =>
        let tgt := dp s + off instr in
        let* t := mem_get (mem s) tgt in
        let* v := mem_get (mem s) (dp s) in
        let* m' := mem_set (mem s) tgt (wrapping_sub t (wrapping_mul v a)) in
        Done (mkState (ip s) (dp s) m' (stdin s) (stdout s))
    | SeekL =>
        let* d := seek_left (mem s) (Z.to_nat (dp s)) in
        Done (mkState (ip s) (Z.of_nat d) (mem s) (stdin s) (stdout s))
    | SeekR =>
        let* d := seek_right (mem s) (S (Z.to_nat (tape_len - dp s))) (dp s) in
        Done (mkState (ip s) d (mem s) (stdin s) (stdout s))
    end in
  if ip s' + 1 >? usize_max then Panicked
  else Done (mkState (ip s' + 1) (dp s') (mem s') (stdin s') (stdout s')).

(** Outcome of running for a bounded number of steps. *)
Inductive outcome :=
| Halted (s : State)        (* [ip >= code.len()]: [run] returns *)
| Crashed (s : State)       (* the step from [s] panics *)
| OutOfFuel (s : State).

Fixpoint run_from (fuel : nat) (code : list Instr) (s : State) : outcome :=
  if ip s <? Z.of_nat (length code) then
    match fuel with
    | O => OutOfFuel s
    | S fuel' =>
        match step code s with
        | Done s' => run_from fuel' code s'
        | Panicked => Crashed s
        end
    end
  else Halted s.

(** [run(code)] with stdin [inp], for at most [fuel] steps. *)
Definition run (code : list Instr) (inp : list (option Z)) (fuel : nat) : outcome :=
  run_from fuel code (init_state inp).

(** The stdout of a run that returns normally (no panic, so in particular no
    tape access outside [0, 30000)) within [fuel] steps. *)
Definition halted_stdout (o : outcome) : option (list Z) :=
  match o with Halted s => Some (stdout s) | _ => None end.

Definition compile_and_run (src : string) (opts : Options) (inp : list (option Z))
    (fuel : nat) : option (list Z) :=
  match compile src opts with
  | Done (Some code) => halted_stdout (run code inp fuel)
  | _ => None
  end.

(** Cell [i] of the tape when the run returned normally. *)
Definition halted_cell (o : outcome) (i : Z) : option Z :=
  match o with Halted s => Some (mem s i) | _ => None end.

(** ** Properties, stated over the embedding *)

(** The byte the cell holds after a sequence of reads that started from
    [d]: the last successful read, or [d] when none succeeded. *)
Fixpoint last_successful_read (l : list (option Z)) (d : Z) : Z :=
  match l with
  | [] => d
  | Some b :: l' => last_successful_read l' b
  | None :: l' => last_successful_read l' d
  end.

(** Jump pairing: every [JZ] at [i] with offset [d > 0] has a [JNZ] with
    offset [-d] at [i + d] ... *)
Definition jz_paired (p : list Instr) : Prop :=
  forall i ins, p !! i = Some ins -> opcode ins = JZ -> 0 < off ins ->
    exists ins', p !! (i + Z.to_nat (off ins))%nat = Some ins' /\
                 opcode ins' = JNZ /\ off ins' = - off ins.

(** ... and every [JNZ] at [j] with offset [-d < 0] has a [JZ] with offset
    [d] at [j - d]. *)
Definition jnz_paired (p : list Instr) : Prop :=
  forall j ins, p !! j = Some ins -> opcode ins = JNZ -> off ins < 0 ->
    (Z.to_nat (- off ins) <= j)%nat /\
    exists ins', p !! (j - Z.to_nat (- off ins))%nat = Some ins' /\
                 opcode ins' = JZ /\ off ins' = - off ins.

Definition jumps_paired (p : list Instr) : Prop := jz_paired p /\ jnz_paired p.

Definition is_jump (op : Op) : bool :=
  match op with JZ | JNZ => true | _ => false end.

(** The open-loop stack: strictly decreasing from the top, every entry below
    [n]. *)
Fixpoint desc_below (l : list nat) (n : nat) : Prop :=
  match l with
  | [] => True
  | a :: l' => (a < n)%nat /\ desc_below l' a
  end.

(** The compiler's invariant on the vector and the open-loop stack: open
    [JZ]s carry offset 0, closed pairs are paired, and no closed pair
    straddles an open [JZ]. *)
Record instrs_inv (l : list Instr) (js : list nat) : Prop := {
  inv_open : forall s, s ∈ js ->
    exists ins, l !! s = Some ins /\ opcode ins = JZ /\ off ins = 0;
  inv_desc : desc_below js (length l);
  inv_jz : jz_paired l;
  inv_jnz : jnz_paired l;
  inv_nest : forall s i ins, s ∈ js -> l !! i = Some ins ->
    opcode ins = JZ -> 0 < off ins ->
    (s < i)%nat \/ (i + Z.to_nat (off ins) < s)%nat;
}.

(** ... and the accumulator never holds a jump. *)
Definition compile_inv (st : CState) : Prop :=
  instrs_inv (instrs st) (jumps st) /\
  (forall op, accumulating st = Some op -> is_jump op = false).

Definition same_shape (x y : Instr) : Prop := opcode x = opcode y /\ off x = off y.

(** [l'] keeps the opcode and offset of every instruction of [l] ... *)
Definition agree (l l' : list Instr) : Prop :=
  forall i x, l !! i = Some x -> exists y, l' !! i = Some y /\ same_shape x y.

(** ... and has no jump that [l] does not have at the same place. *)
Definition jumps_from (l' l : list Instr) : Prop :=
  forall i y, l' !! i = Some y -> is_jump (opcode y) = true ->
    exists x, l !! i = Some x /\ same_shape x y.

Definition no_jumps (l : list Instr) : Prop :=
  Forall (fun x => is_jump (opcode x) = false) l.

(** ** Further definitions: the compiler's output and the bracket scan *)

Definition is_fusible (op : Op) : bool :=
  match op with Add | Sub | Left | Right | PutCh | GetCh => true | _ => false end.

(** The ranges [compile] keeps in each instruction. *)
Definition instr_wf (i : Instr) : Prop :=
  match opcode i with
  | Add | Sub | Left | Right | PutCh | GetCh => 1 <= arg i <= 255
  | CMul | CNMul => 1 <= arg i <= 255 /\ 1 <= off i
  | Set_ => 0 <= arg i <= 255
  | J | JZ | JNZ | SeekL | SeekR => arg i = 0
  end.

(** A recorded [(del, off)] pair of [copy_multiply]. *)
Definition delta_ok (d : Z * Z) : Prop :=
  1 <= Z.abs (fst d) <= 255 /\ 1 <= snd d.

(** The invariant of [compile]'s state, for every option set. *)
Record cstate_wf (st : CState) : Prop := {
  wf_instrs : Forall instr_wf (instrs st);
  wf_open : forall s, s ∈ jumps st ->
    exists ins, instrs st !! s = Some ins /\ opcode ins = JZ;
  wf_desc : desc_below (jumps st) (length (instrs st));
  wf_acc_some : forall op, accumulating st = Some op ->
    is_fusible op = true /\ 1 <= accumulated st <= 255;
  wf_acc_none : accumulating st = None -> accumulated st = 0;
}.

(** The depth of open brackets after one character; [None] for a [']']
    with nothing open. *)
Definition bracket_step (c : ascii) (d : nat) : option nat :=
  match opcode_of c with
  | Some JZ => Some (S d)
  | Some JNZ => match d with O => None | S d' => Some d' end
  | _ => Some d
  end.

Fixpoint bracket_depth (d : nat) (cs : list ascii) : option nat :=
  match cs with
  | [] => Some d
  | c :: cs' =>
      match bracket_step c d with
      | None => None
      | Some d' => bracket_depth d' cs'
      end
  end.

(** No [']'] closes an unopened loop and no ['['] stays open. *)
Definition balanced (src : string) : bool :=
  match bracket_depth 0 (list_ascii_of_string src) with
  | Some O => true
  | _ => false
  end.

Definition is_command (c : ascii) : bool :=
  match opcode_of c with Some _ => true | None => false end.

(** The source with every character other than the eight commands removed. *)
Definition strip_comments (src : string) : string :=
  string_of_list_ascii (List.filter is_command (list_ascii_of_string src)).

(** The opcode each command character becomes, in order. *)
Definition command_ops (src : string) : list Op :=
  omap opcode_of (list_ascii_of_string src).

(** [n] copies of the character [c]. *)
Definition repeat_char (c : ascii) (n : nat) : string :=
  string_of_list_ascii (replicate n c).

(** Every run-length instruction counts a single command. *)
Definition unit_counts (p : list Instr) : Prop :=
  Forall (fun i => is_fusible (opcode i) = true -> arg i = 1) p.


(** A loop around the body [b], with the offsets [compile] gives its [JZ]
    and [JNZ]: the program [copy_multiply] reads when the loop opens at 0. *)
Definition loop_prog (b : list Instr) : list Instr :=
  [mkInstr JZ 0 (Z.of_nat (length b) + 1)] ++ b ++
  [mkInstr JNZ 0 (- (Z.of_nat (length b) + 1))].

(** The sum of the recorded [del]s whose target, from cell [d], is cell [i]. *)
Fixpoint delta_sum (d i : Z) (ds : list (Z * Z)) : Z :=
  match ds with
  | [] => 0
  | (del, o) :: ds' => (if d + o =? i then del else 0) + delta_sum d i ds'
  end.

(** Every cell holds a [u8]. *)
Definition bytes (m : Z -> Z) : Prop := forall i, 0 <= m i <= 255.

(** ** [main] (lines 24-51) *)

(** What [File::open] and [read_to_string] make of the argument: the file
    cannot be opened, or it is not valid UTF-8 text, or its text. *)
Inductive source_file :=
| CannotOpen
| NotText
| Text (code : string).

Definition bytes_of_string (s : string) : list Z :=
  map (fun a => Z.of_nat (nat_of_ascii a)) (list_ascii_of_string s).

(** [println!]: the bytes of the line and a newline. *)
Definition println (s : string) : list Z := bytes_of_string s ++ [10].

Inductive main_outcome :=
| Exited (out : list Z)
| MainPanicked
| MainOutOfFuel.

(** [main] with [env::args().nth(1)] resolved to [arg]. *)
Definition main (arg : option source_file) (inp : list (option Z)) (fuel : nat)
    : main_outcome :=
  match arg with
  | None => Exited (println "USAGE: bfo <file>")
  | Some CannotOpen => Exited (println "ERROR: could not open file.")
  | Some NotText => Exited []
  | Some (Text code) =>
      match compile code default_options with
      | Panicked => MainPanicked
      | Done None =>
          Exited (println "ERROR: could not compile code (are your brackets matched?")
      | Done (Some p) =>
          match run p inp fuel with
          | Halted s => Exited (stdout s)
          | Crashed _ => MainPanicked
          | OutOfFuel _ => MainOutOfFuel
          end
      end
  end.

(** ** Lemmas *)

Lemma rbind_done {A B} (m : result A) (k : A -> result B) (b : B) :
  rbind m k = Done b -> exists a, m = Done a /\ k a = Done b.
Proof. destruct m as [a|]; simpl; [eauto | discriminate]. Qed.

(** *** Concrete runs *)

(** C1 (code_bug): optimisation does not preserve output.  [+[[-]].] under
    the default options compiles to [Add 1; JZ 0; PutCh 1]: [set_jump] keeps
    [code[start .. len-2]] and so drops the [Set 0] the inner loop became.
    The optimised run prints byte 1; the unoptimised run prints byte 0.
    Both runs return normally, without any access outside the tape. *)
Theorem optimised_output_differs :
  compile_and_run "+[[-]]."%string default_options [] 100 = Some [1] /\
  compile_and_run "+[[-]]."%string no_options [] 100 = Some [0].
Proof. split; vm_compute; reflexivity. Qed.

(** C2 (code_bug): [compile] panics on [[-]] under the default options:
    [set_jump] indexes [code[start - 1]] with [start = 0]. *)
Theorem compile_panics_on_leading_loop :
  compile "[-]"%string default_options = Panicked.
Proof. vm_compute. reflexivity. Qed.

(** C3 (code_bug): the balanced source [[]] gets no instruction vector and
    the unbalanced [[]]] no bracket error under the default options: both
    panic in [set_jump].  With [loop_set_jump] off the same sources give
    [Some] and [None]. *)
Theorem bracket_check_preempted_by_panic :
  compile "[]"%string default_options = Panicked /\
  compile "[]]"%string default_options = Panicked /\
  compile "[]"%string set_zero_options = Done (Some [mkInstr JZ 0 1; mkInstr JNZ 0 (-1)]) /\
  compile "[]]"%string set_zero_options = Done None.
Proof. repeat split; vm_compute; reflexivity. Qed.

(** C4 (counterexample): under the default options [+[>[-]]] compiles to
    [Add 1; JZ 1; Right 1]: [set_jump] removed the [JNZ], and the [JZ] at 1
    with offset 1 points at a [Right]. *)
Theorem jump_pairing_fails_with_set_jump :
  compile "+[>[-]]"%string default_options =
    Done (Some [mkInstr Add 1 0; mkInstr JZ 0 1; mkInstr Right 1 0]) /\
  ~ jz_paired [mkInstr Add 1 0; mkInstr JZ 0 1; mkInstr Right 1 0].
Proof.
  split; [vm_compute; reflexivity|].
  intros H. destruct (H 1%nat (mkInstr JZ 0 1)) as (ins' & Hl & Hop & _);
    [reflexivity | reflexivity | simpl; lia |].
  simpl in Hl. injection Hl as <-. discriminate.
Qed.

(** C5 (code_bug): [PutCh] writes [memory[dp] as char] through [print!],
    i.e. UTF-8: the cell value 255 ([-.]) comes out as the two bytes
    0xC3 0xBF, not the single byte 0xFF. *)
Theorem putch_writes_utf8 :
  compile_and_run "-."%string default_options [] 10 = Some [195; 191].
Proof. vm_compute. reflexivity. Qed.

(** C6 (counterexample): [Right 1] at [dp = 29999] yields [dp = 30000], not
    [min(29999, 30000)]. *)
Theorem right_passes_tape_end :
  match step [mkInstr Right 1 0] (mkState 0 29999 (fun _ => 0) [] []) with
  | Done s' => dp s' = 30000 /\ dp s' <> Z.min 29999 (29999 + 1)
  | Panicked => False
  end.
Proof. vm_compute. split; [reflexivity | discriminate]. Qed.

(** C7 (code_bug): [set_zero] moves [delta] by one per instruction instead
    of by its [arg].  With fusion, [+[--+]] has body [Sub 2; Add 1] (sum -1)
    and keeps its loop, while [+[+--+]] has body [Add 1; Sub 2; Add 1]
    (sum 0) and becomes [Set 0]. *)
Theorem set_zero_counts_instructions :
  compile "+[--+]"%string set_zero_options =
    Done (Some [mkInstr Add 1 0; mkInstr JZ 0 3; mkInstr Sub 2 0;
                mkInstr Add 1 0; mkInstr JNZ 0 (-3)]) /\
  compile "+[+--+]"%string set_zero_options =
    Done (Some [mkInstr Add 1 0; mkInstr Set_ 0 0]).
Proof. split; vm_compute; reflexivity. Qed.

(** C8 (counterexample): with [loop_copy_multiply] on but [fuse_adjacent]
    off, the loop of [++[->++<]] becomes two [CMul{1,1}]. *)
Theorem copy_multiply_unfused :
  compile "++[->++<]"%string (mkOptions false false false true false false) =
    Done (Some [mkInstr Add 1 0; mkInstr Add 1 0; mkInstr CMul 1 1;
                mkInstr CMul 1 1; mkInstr Set_ 0 0]).
Proof. vm_compute. reflexivity. Qed.

(** C8 (amended): with [loop_copy_multiply] and [fuse_adjacent] on, the loop
    of [++[->++<]] becomes [CMul{2,1}; Set 0], with [fuse_adjacent] off it
    becomes [CMul{1,1}; CMul{1,1}; Set 0]; whatever the other options, the
    program returns with cell 0 = 0 and cell 1 = 4. *)
Theorem copy_multiply_scenario (o : Options) :
  loop_copy_multiply o = true ->
  (fuse_adjacent o = true ->
   compile "++[->++<]"%string o =
     Done (Some [mkInstr Add 2 0; mkInstr CMul 2 1; mkInstr Set_ 0 0])) /\
  (fuse_adjacent o = false ->
   compile "++[->++<]"%string o =
     Done (Some [mkInstr Add 1 0; mkInstr Add 1 0; mkInstr CMul 1 1;
                 mkInstr CMul 1 1; mkInstr Set_ 0 0])) /\
  exists p, compile "++[->++<]"%string o = Done (Some p) /\
    halted_cell (run p [] 100) 0 = Some 0 /\
    halted_cell (run p [] 100) 1 = Some 4.
Proof.
  destruct o as [fa fsa lsz lcm lslr lsj]; cbn [loop_copy_multiply fuse_adjacent];
    intros ->.
  split; [|split].
  - intros ->. destruct fsa, lsz, lslr, lsj; vm_compute; reflexivity.
  - intros ->. destruct fsa, lsz, lslr, lsj; vm_compute; reflexivity.
  - destruct fa, fsa, lsz, lslr, lsj;
      eexists; (split; [vm_compute; reflexivity | split; vm_compute; reflexivity]).
Qed.

(** *** One step of the interpreter *)

(** C6 (amended): [Right] sets [dp] to [min(usize::MAX, dp + arg)]; nothing
    clamps it to the tape. *)
Theorem step_right_saturating_add code s i :
  code !! Z.to_nat (ip s) = Some i -> opcode i = Right -> ip s + 1 <= usize_max ->
  exists s', step code s = Done s' /\
    dp s' = Z.min usize_max (dp s + arg i) /\ ip s' = ip s + 1 /\
    mem s' = mem s /\ stdin s' = stdin s /\ stdout s' = stdout s.
Proof.
  intros Hl Hop Hip. unfold step, vec_get. rewrite Hl. cbn [rbind]. rewrite Hop.
  cbn [rbind ip dp mem stdin stdout].
  destruct (Z.gtb_spec (ip s + 1) usize_max); [lia|].
  eexists. repeat split.
Qed.

Lemma get_ch_spec n s :
  in_tape (dp s) = true ->
  exists s', get_ch n s = Done s' /\
    ip s' = ip s /\ dp s' = dp s /\ stdout s' = stdout s /\
    stdin s' = drop n (stdin s) /\
    mem s' (dp s) = last_successful_read (take n (stdin s)) (mem s (dp s)) /\
    (forall k, k <> dp s -> mem s' k = mem s k).
Proof.
  revert s. induction n as [|n IH]; intros [ip0 dp0 m inp out] Hin; simpl in *.
  - eexists. repeat split.
  - destruct inp as [|[b|] inp']; simpl.
    + destruct (IH (mkState ip0 dp0 m [] out)) as (s' & Hs & H1 & H2 & H3 & H4 & H5 & H6);
        [exact Hin|].
      simpl in *. rewrite Hs. exists s'. repeat split; try assumption.
      * rewrite H4. apply drop_nil.
      * rewrite H5, take_nil. reflexivity.
    + unfold mem_set. rewrite Hin.
      destruct (IH (mkState ip0 dp0 (fun k => if k =? dp0 then b else m k) inp' out))
        as (s' & Hs & H1 & H2 & H3 & H4 & H5 & H6); [exact Hin|].
      simpl in *. rewrite Hs. exists s'. repeat split; try assumption.
      * rewrite H5. by rewrite Z.eqb_refl.
      * intros k Hk. rewrite H6 by exact Hk.
        destruct (Z.eqb_spec k dp0); [contradiction | reflexivity].
    + destruct (IH (mkState ip0 dp0 m inp' out)) as (s' & Hs & H1 & H2 & H3 & H4 & H5 & H6);
        [exact Hin|].
      simpl in *. rewrite Hs. exists s'. repeat split; assumption.
Qed.

(** C9: a [GetCh] with count [arg] performs exactly [arg] reads (it consumes
    [arg] entries of stdin) and leaves in [memory[dp]] the last successfully
    read byte, or the old value when every read failed; no other cell, and
    neither [dp] nor stdout, changes. *)
Theorem step_getch code s i :
  code !! Z.to_nat (ip s) = Some i -> opcode i = GetCh ->
  in_tape (dp s) = true -> ip s + 1 <= usize_max ->
  exists s', step code s = Done s' /\
    stdin s' = drop (Z.to_nat (arg i)) (stdin s) /\
    mem s' (dp s) =
      last_successful_read (take (Z.to_nat (arg i)) (stdin s)) (mem s (dp s)) /\
    (forall k, k <> dp s -> mem s' k = mem s k) /\
    dp s' = dp s /\ stdout s' = stdout s /\ ip s' = ip s + 1.
Proof.
  intros Hl Hop Hin Hip. unfold step, vec_get. rewrite Hl. cbn [rbind]. rewrite Hop.
  destruct (get_ch_spec (Z.to_nat (arg i)) s Hin)
    as (s' & Hs & H1 & H2 & H3 & H4 & H5 & H6).
  rewrite Hs. cbn [rbind]. rewrite H1.
  destruct (Z.gtb_spec (ip s + 1) usize_max); [lia|].
  eexists. split; [reflexivity|]. cbn [ip dp mem stdin stdout].
  repeat split; [exact H4 | exact H5 | exact H6 | exact H2 | exact H3].
Qed.

Lemma step_getch_witness :
  let code := [mkInstr GetCh 3 0] in
  let s := init_state [Some 65; None; Some 67; Some 68] in
  (code !! Z.to_nat (ip s) = Some (mkInstr GetCh 3 0) /\ opcode (mkInstr GetCh 3 0) = GetCh /\
   in_tape (dp s) = true /\ ip s + 1 <= usize_max) /\
  exists s', step code s = Done s' /\
    stdin s' = drop (Z.to_nat (arg (mkInstr GetCh 3 0))) (stdin s) /\
    mem s' (dp s) =
      last_successful_read (take (Z.to_nat (arg (mkInstr GetCh 3 0))) (stdin s)) (mem s (dp s)) /\
    (forall k, k <> dp s -> mem s' k = mem s k) /\
    dp s' = dp s /\ stdout s' = stdout s /\ ip s' = ip s + 1.
Proof.
  intros code s.
  split; [split; [reflexivity | split; [reflexivity | split; [reflexivity | vm_compute; discriminate]]]|].
  apply (step_getch code s (mkInstr GetCh 3 0));
    [reflexivity | reflexivity | reflexivity | vm_compute; discriminate].
Defined.

Lemma step_right_saturating_add_witness :
  let code := [mkInstr Right 5 0] in
  let s := mkState 0 29998 (fun _ => 0) [] [] in
  (code !! Z.to_nat (ip s) = Some (mkInstr Right 5 0) /\
   opcode (mkInstr Right 5 0) = Right /\ ip s + 1 <= usize_max) /\
  exists s', step code s = Done s' /\
    dp s' = Z.min usize_max (dp s + arg (mkInstr Right 5 0)) /\ ip s' = ip s + 1 /\
    mem s' = mem s /\ stdin s' = stdin s /\ stdout s' = stdout s.
Proof.
  intros code s.
  split; [split; [reflexivity | split; [reflexivity | vm_compute; discriminate]]|].
  apply (step_right_saturating_add code s (mkInstr Right 5 0));
    [reflexivity | reflexivity | vm_compute; discriminate].
Defined.

(** *** Determinism *)

Lemma run_from_deterministic n m code s s1 s2 :
  run_from n code s = Halted s1 -> run_from m code s = Halted s2 -> s1 = s2.
Proof.
  revert m s. induction n as [|n IH]; intros m s H1 H2; destruct m as [|m];
    simpl in *; destruct (ip s <? Z.of_nat (length code)); try congruence.
  destruct (step code s); [|discriminate]. eauto.
Qed.

(** C10: two runs of the same vector on the same stdin that both return
    (whatever step budgets they were given) end with the same stdout, tape
    and data pointer. *)
Theorem run_deterministic code inp n m s1 s2 :
  run code inp n = Halted s1 -> run code inp m = Halted s2 ->
  stdout s1 = stdout s2 /\ mem s1 = mem s2 /\ dp s1 = dp s2.
Proof.
  unfold run. intros H1 H2.
  rewrite (run_from_deterministic n m code (init_state inp) s1 s2 H1 H2).
  repeat split.
Qed.

Lemma run_deterministic_witness :
  match run [mkInstr GetCh 1 0; mkInstr PutCh 2 0] [Some 7] 5,
        run [mkInstr GetCh 1 0; mkInstr PutCh 2 0] [Some 7] 50 with
  | Halted s1, Halted s2 => stdout s1 = stdout s2 /\ mem s1 = mem s2 /\ dp s1 = dp s2
  | _, _ => False
  end.
Proof.
  remember (run [mkInstr GetCh 1 0; mkInstr PutCh 2 0] [Some 7] 5) as o1 eqn:E1.
  remember (run [mkInstr GetCh 1 0; mkInstr PutCh 2 0] [Some 7] 50) as o2 eqn:E2.
  destruct o1 as [s1|s1|s1], o2 as [s2|s2|s2];
    try (vm_compute in E1; discriminate E1); try (vm_compute in E2; discriminate E2).
  exact (run_deterministic _ _ 5 50 s1 s2 (eq_sym E1) (eq_sym E2)).
Defined.

(** *** Jump pairing in the compiler's output *)

Lemma desc_below_mono l a b : desc_below l a -> (a <= b)%nat -> desc_below l b.
Proof. destruct l as [|x l]; simpl; [done|]. intros [? ?] ?. split; [lia | done]. Qed.

Lemma desc_below_lt l n s : desc_below l n -> s ∈ l -> (s < n)%nat.
Proof.
  revert n. induction l as [|a l IH]; intros n Hd Hs; [by apply elem_of_nil in Hs|].
  destruct Hd as [Ha Hd]. apply elem_of_cons in Hs as [->|Hs]; [done|].
  specialize (IH a Hd Hs). lia.
Qed.

Lemma agree_length l l' : agree l l' -> (length l <= length l')%nat.
Proof.
  intros H. destruct (length l) as [|n] eqn:E; [lia|].
  destruct (lookup_lt_is_Some_2 l n) as [x Hx]; [lia|].
  destruct (H n x Hx) as (y & Hy & _). apply lookup_lt_Some in Hy. lia.
Qed.

(** The invariant depends on opcodes and offsets only, and on jumps only. *)
Lemma inv_transfer l l' js :
  instrs_inv l js -> agree l l' -> jumps_from l' l -> instrs_inv l' js.
Proof.
  intros [Hopen Hdesc Hjz Hjnz Hnest] Hag Hfrom. split.
  - intros s Hs. destruct (Hopen s Hs) as (ins & Hl & Hop & Hoff).
    destruct (Hag s ins Hl) as (y & Hy & [E1 E2]). exists y.
    split; [exact Hy | split; congruence].
  - eapply desc_below_mono; [exact Hdesc | apply agree_length, Hag].
  - intros i y Hy Hop Hoff.
    destruct (Hfrom i y Hy) as (x & Hx & [E1 E2]); [by rewrite Hop|].
    destruct (Hjz i x Hx) as (x' & Hx' & Hop' & Hoff'); [congruence | congruence |].
    destruct (Hag _ x' Hx') as (y' & Hy' & [E1' E2']).
    exists y'. rewrite <- E2. split; [exact Hy' | split; congruence].
  - intros j y Hy Hop Hoff.
    destruct (Hfrom j y Hy) as (x & Hx & [E1 E2]); [by rewrite Hop|].
    destruct (Hjnz j x Hx) as (Hle & x' & Hx' & Hop' & Hoff'); [congruence | congruence |].
    destruct (Hag _ x' Hx') as (y' & Hy' & [E1' E2']).
    rewrite <- E2. split; [exact Hle|]. exists y'. split; [exact Hy' | split; congruence].
  - intros s i y Hs Hy Hop Hoff.
    destruct (Hfrom i y Hy) as (x & Hx & [E1 E2]); [by rewrite Hop|].
    rewrite <- E2. eapply Hnest; [exact Hs | exact Hx | congruence | congruence].
Qed.

(** Appending jump-free instructions. *)
Lemma inv_app_no_jumps l opt js :
  instrs_inv l js -> no_jumps opt -> instrs_inv (l ++ opt) js.
Proof.
  intros Hinv Hnj. apply (inv_transfer l); [exact Hinv | |].
  - intros i x Hx. exists x. split; [by apply lookup_app_l_Some | split; reflexivity].
  - intros i y Hy Hj. apply lookup_app_Some in Hy as [Hy|[_ Hy]].
    + exists y. split; [exact Hy | split; reflexivity].
    + unfold no_jumps in Hnj. rewrite Forall_lookup in Hnj.
      rewrite (Hnj _ _ Hy) in Hj. discriminate.
Qed.

(** Changing the [arg] of one instruction (the [Set]/[Add] fusion). *)
Lemma inv_set_arg l k a l' js :
  vec_update l k (set_arg a) = Done l' -> instrs_inv l js -> instrs_inv l' js.
Proof.
  unfold vec_update. destruct (l !! k) as [x|] eqn:Hk; [|discriminate].
  intros [= <-] Hinv. pose proof (lookup_lt_Some _ _ _ Hk) as Hlt.
  apply (inv_transfer l); [exact Hinv | |].
  - intros i y Hy. destruct (decide (i = k)) as [->|Hne].
    + exists (set_arg a x). rewrite list_lookup_insert_eq by exact Hlt.
      rewrite Hk in Hy. injection Hy as <-. split; [reflexivity | split; reflexivity].
    + exists y. rewrite list_lookup_insert_ne by congruence.
      split; [exact Hy | split; reflexivity].
  - intros i y Hy _. destruct (decide (i = k)) as [->|Hne].
    + rewrite list_lookup_insert_eq in Hy by exact Hlt. injection Hy as <-.
      exists x. split; [exact Hk | split; reflexivity].
    + rewrite list_lookup_insert_ne in Hy by congruence.
      exists y. split; [exact Hy | split; reflexivity].
Qed.

(** Opening a loop: [JZ] with offset 0 pushed, its index on the stack. *)
Lemma inv_push_jz l js :
  instrs_inv l js -> instrs_inv (l ++ [mkInstr JZ 0 0]) (length l :: js).
Proof.
  intros [Hopen Hdesc Hjz Hjnz Hnest]. split.
  - intros s Hs. apply elem_of_cons in Hs as [->|Hs].
    + eexists. rewrite lookup_app_r, Nat.sub_diag by lia.
      split; [reflexivity | split; reflexivity].
    + destruct (Hopen s Hs) as (ins & Hl & Hop & Hoff). exists ins.
      split; [by apply lookup_app_l_Some | split; assumption].
  - rewrite length_app. simpl. split; [lia | exact Hdesc].
  - intros i ins Hi Hop Hoff. apply lookup_app_Some in Hi as [Hi|[_ Hi]].
    + destruct (Hjz i ins Hi Hop Hoff) as (ins' & Hl' & ?). exists ins'.
      split; [by apply lookup_app_l_Some | assumption].
    + apply list_lookup_singleton_Some in Hi as [_ <-]. simpl in Hoff. lia.
  - intros j ins Hj Hop Hoff. apply lookup_app_Some in Hj as [Hj|[_ Hj]].
    + destruct (Hjnz j ins Hj Hop Hoff) as (Hle & ins' & Hl' & ?).
      split; [exact Hle|]. exists ins'.
      split; [by apply lookup_app_l_Some | assumption].
    + apply list_lookup_singleton_Some in Hj as [_ <-]. discriminate.
  - intros s i ins Hs Hi Hop Hoff. apply lookup_app_Some in Hi as [Hi|[_ Hi]].
    + apply elem_of_cons in Hs as [->|Hs].
      * right. destruct (Hjz i ins Hi Hop Hoff) as (ins' & Hl' & _).
        by apply lookup_lt_Some in Hl'.
      * eauto.
    + apply list_lookup_singleton_Some in Hi as [_ <-]. simpl in Hoff. lia.
Qed.

(** Closing the innermost loop without rewriting it: the [JNZ] is pushed
    and the offset of the [JZ] at [start] is set. *)
Lemma inv_close l start js x :
  instrs_inv l (start :: js) -> l !! start = Some x ->
  instrs_inv
    (<[start := set_off (- (Z.of_nat start - Z.of_nat (length l))) x]>
       (l ++ [mkInstr JNZ 0 (Z.of_nat start - Z.of_nat (length l))])) js.
Proof.
  intros [Hopen Hdesc Hjz Hjnz Hnest] Hx.
  destruct (Hopen start) as (x0 & Hx0 & Hopx & Hoffx); [by apply elem_of_cons; left|].
  rewrite Hx in Hx0. injection Hx0 as <-.
  destruct Hdesc as [Hlt Hdesc].
  assert (Hins : (start < length (l ++ [mkInstr JNZ 0 (Z.of_nat start - Z.of_nat (length l))]))%nat)
    by (rewrite length_app; simpl; lia).
  assert (Hjs : forall s, s ∈ js -> (s < start)%nat) by (intros; eapply desc_below_lt; eauto).
  split.
  - intros s Hs. pose proof (Hjs s Hs).
    destruct (Hopen s) as (ins & Hl & ?); [by apply elem_of_cons; right|].
    exists ins. rewrite list_lookup_insert_ne by lia.
    split; [by apply lookup_app_l_Some | assumption].
  - eapply desc_below_mono; [exact Hdesc|]. rewrite length_insert, length_app. simpl. lia.
  - intros i ins Hi Hop Hoff. destruct (decide (i = start)) as [->|Hne].
    + rewrite list_lookup_insert_eq in Hi by exact Hins. injection Hi as <-.
      simpl in Hoff |- *.
      replace (start + Z.to_nat (- (Z.of_nat start - Z.of_nat (length l))))%nat
        with (length l) by lia.
      rewrite list_lookup_insert_ne by lia.
      rewrite lookup_app_r, Nat.sub_diag by lia.
      eexists. split; [reflexivity | simpl; split; [reflexivity | lia]].
    + rewrite list_lookup_insert_ne in Hi by congruence.
      apply lookup_app_Some in Hi as [Hi|[_ Hi]].
      * destruct (Hjz i ins Hi Hop Hoff) as (ins' & Hl' & Hop' & Hoff').
        exists ins'. rewrite list_lookup_insert_ne.
        -- split; [by apply lookup_app_l_Some | split; assumption].
        -- intros Heq. rewrite <- Heq, Hx in Hl'. injection Hl' as <-. congruence.
      * apply list_lookup_singleton_Some in Hi as [_ <-]. discriminate.
  - intros j ins Hj Hop Hoff. destruct (decide (j = start)) as [->|Hne].
    + rewrite list_lookup_insert_eq in Hj by exact Hins. injection Hj as <-.
      simpl in Hop. congruence.
    + rewrite list_lookup_insert_ne in Hj by congruence.
      apply lookup_app_Some in Hj as [Hj|[Hle Hj]].
      * destruct (Hjnz j ins Hj Hop Hoff) as (Hle & ins' & Hl' & Hop' & Hoff').
        split; [exact Hle|]. exists ins'. rewrite list_lookup_insert_ne.
        -- split; [by apply lookup_app_l_Some | split; assumption].
        -- intros Heq. rewrite <- Heq, Hx in Hl'. injection Hl' as <-. lia.
      * apply list_lookup_singleton_Some in Hj as [Hj0 <-].
        assert (j = length l) by lia. subst j. simpl.
        split; [lia|].
        replace (length l - Z.to_nat (- (Z.of_nat start - Z.of_nat (length l))))%nat
          with start by lia.
        rewrite list_lookup_insert_eq by exact Hins.
        eexists. split; [reflexivity | simpl; split; [exact Hopx | reflexivity]].
  - intros s i ins Hs Hi Hop Hoff. pose proof (Hjs s Hs).
    destruct (decide (i = start)) as [->|Hne]; [left; lia|].
    rewrite list_lookup_insert_ne in Hi by congruence.
    apply lookup_app_Some in Hi as [Hi|[_ Hi]].
    + eapply Hnest; [by apply elem_of_cons; right | exact Hi | exact Hop | exact Hoff].
    + apply list_lookup_singleton_Some in Hi as [_ <-]. discriminate.
Qed.

(** Cutting the vector back to [start], as a loop rewrite does. *)
Lemma inv_take l start js :
  instrs_inv l (start :: js) -> instrs_inv (take start l) js.
Proof.
  intros [Hopen Hdesc Hjz Hjnz Hnest].
  destruct Hdesc as [Hlt Hdesc].
  assert (Hjs : forall s, s ∈ js -> (s < start)%nat) by (intros; eapply desc_below_lt; eauto).
  split.
  - intros s Hs. pose proof (Hjs s Hs).
    destruct (Hopen s) as (ins & Hl & ?); [by apply elem_of_cons; right|].
    exists ins. rewrite lookup_take_Some. auto.
  - rewrite length_take. replace (min start (length l)) with start by lia. exact Hdesc.
  - intros i ins Hi Hop Hoff. apply lookup_take_Some in Hi as [Hi Hi'].
    destruct (Hjz i ins Hi Hop Hoff) as (ins' & Hl' & ?).
    destruct (Hnest start i ins) as [?|?];
      [by apply elem_of_cons; left | exact Hi | exact Hop | exact Hoff | lia |].
    exists ins'. rewrite lookup_take_Some. auto.
  - intros j ins Hj Hop Hoff. apply lookup_take_Some in Hj as [Hj Hj'].
    destruct (Hjnz j ins Hj Hop Hoff) as (Hle & ins' & Hl' & ?).
    split; [exact Hle|]. exists ins'. rewrite lookup_take_Some.
    split; [split; [exact Hl' | lia] | assumption].
  - intros s i ins Hs Hi Hop Hoff. apply lookup_take_Some in Hi as [Hi _].
    eapply Hnest; [by apply elem_of_cons; right | exact Hi | exact Hop | exact Hoff].
Qed.

(** The loop rewrites other than [set_jump] emit no jump. *)
Lemma set_zero_no_jumps code start opts l :
  set_zero code start opts = Some l -> no_jumps l.
Proof.
  unfold set_zero. destruct (negb _); [discriminate|].
  destruct (set_zero_delta _ _); [|discriminate].
  destruct (negb _); [|discriminate]. intros [= <-]. repeat constructor.
Qed.

Lemma copy_multiply_no_jumps code start opts l :
  copy_multiply code start opts = Some l -> no_jumps l.
Proof.
  unfold copy_multiply. destruct (negb _); [discriminate|].
  destruct (_ <=? _)%nat; [discriminate|].
  destruct (copy_multiply_walk _ _ _ _) as [[[fd ds] o]|]; [|discriminate].
  destruct (negb (o =? 0)); [discriminate|]. destruct (negb (fd =? -1)); [discriminate|].
  intros [= <-]. apply Forall_app. split.
  - apply Forall_forall. intros z Hz. apply list_elem_of_In, in_map_iff in Hz as ([del o'] & <- & _).
    unfold cm_instr. by destruct (del <? 0).
  - repeat constructor.
Qed.

Lemma seek_lr_no_jumps code start opts l :
  seek_lr code start opts = Done (Some l) -> no_jumps l.
Proof.
  unfold seek_lr. destruct (negb _); [discriminate|]. destruct (negb _); [discriminate|].
  destruct (vec_get code (start + 1)) as [i|]; cbn [rbind]; [|discriminate].
  intros H. injection H as H.
  destruct (opcode i); try discriminate; destruct (arg i =? 1); try discriminate;
    injection H as <-; repeat constructor.
Qed.

Lemma optimise_loop_no_jumps code start opts opt :
  loop_set_jump opts = false ->
  optimise_loop code start opts = Done (Some opt) -> no_jumps opt.
Proof.
  intros Hsj. unfold optimise_loop.
  destruct (seek_lr code start opts) as [c|] eqn:Ec; cbn [rbind]; [|discriminate].
  unfold set_jump. rewrite Hsj. cbn [negb rbind]. intros [= H].
  destruct (set_zero code start opts) eqn:Ea; simpl in H.
  { injection H as <-. eapply set_zero_no_jumps; eauto. }
  destruct (copy_multiply code start opts) eqn:Eb; simpl in H.
  { injection H as <-. eapply copy_multiply_no_jumps; eauto. }
  destruct c as [l|]; simpl in H; [|discriminate].
  injection H as <-. eapply seek_lr_no_jumps; eauto.
Qed.

Lemma store_acc_cases opts l acc_op n l' :
  store_acc opts l acc_op n = Done l' ->
  (exists k a, vec_update l k (set_arg a) = Done l') \/
  l' = l ++ [mkInstr acc_op n 0].
Proof.
  unfold store_acc. destruct (_ && _); [|intros [= <-]; right; reflexivity].
  destruct (vec_get l (length l - 1)) as [prior|]; cbn [rbind]; [|discriminate].
  destruct (opcode prior), acc_op; intros H;
    first [left; eexists _, _; exact H | right; congruence].
Qed.

Lemma flush_inv opts op st st1 :
  compile_inv st -> flush opts op st = Done st1 -> compile_inv st1.
Proof.
  intros [Hinv Hacc]. unfold flush. destruct (accumulating st) as [acc_op|] eqn:Ea.
  - destruct (_ || _ || _).
    + destruct (store_acc opts (instrs st) acc_op (accumulated st)) as [l'|] eqn:Es;
        cbn [rbind]; [|discriminate].
      intros [= <-]. split; [|simpl; discriminate]. simpl.
      destruct (store_acc_cases _ _ _ _ _ Es) as [(k & a & Hk)| ->].
      * eapply inv_set_arg; eauto.
      * apply inv_app_no_jumps; [exact Hinv|].
        constructor; [exact (Hacc acc_op eq_refl) | constructor].
    + intros [= <-]. split; [exact Hinv | rewrite Ea; exact Hacc].
  - intros [= <-]. split; [exact Hinv | rewrite Ea; exact Hacc].
Qed.

Lemma compile_char_inv opts st c st' :
  loop_set_jump opts = false -> compile_inv st ->
  compile_char opts st c = Done (Some st') -> compile_inv st'.
Proof.
  intros Hsj Hst H. unfold compile_char in H.
  destruct (opcode_of c) as [op|]; [|injection H as <-; exact Hst].
  destruct (flush opts op st) as [st1|] eqn:Ef; cbn [rbind] in H; [|discriminate].
  destruct (flush_inv _ _ _ _ Hst Ef) as [Hinv Hacc].
  destruct op; try discriminate H.
  1-6: destruct (_ >? 255); [discriminate H|]; injection H as <-;
    split; [exact Hinv | simpl; intros ? [= <-]; reflexivity].
  - (* [ *)
    injection H as <-. split; [apply inv_push_jz, Hinv | exact Hacc].
  - (* ] *)
    destruct (jumps st1) as [|start js] eqn:Ej; [discriminate H|].
    cbv zeta in H.
    destruct (Hinv.(inv_open _ _) start) as (x & Hx & _); [by apply elem_of_cons; left|].
    assert (Hlt : (start < length (instrs st1))%nat) by (eapply lookup_lt_Some; eauto).
    unfold vec_update at 1 in H.
    rewrite lookup_app_l, Hx in H by exact Hlt. cbn [rbind] in H.
    set (instrs3 := <[start := _]> _) in H.
    destruct (optimise_loop instrs3 start opts) as [opt|] eqn:Eo; cbn [rbind] in H;
      [|discriminate H].
    injection H as <-. split; [|exact Hacc]. simpl.
    destruct opt as [optimised|].
    + unfold instrs3. rewrite take_insert_ge, take_app_le by lia.
      apply inv_app_no_jumps; [apply inv_take, Hinv|].
      eapply optimise_loop_no_jumps; eauto.
    + apply inv_close; assumption.
Qed.

Lemma compile_chars_inv opts cs st st' :
  loop_set_jump opts = false -> compile_inv st ->
  compile_chars opts cs st = Done (Some st') -> compile_inv st'.
Proof.
  intros Hsj. revert st. induction cs as [|c cs IH]; intros st Hst H;
    cbn [compile_chars] in H.
  - injection H as <-. exact Hst.
  - destruct (compile_char opts st c) as [[st1|]|] eqn:Ec; cbn [rbind] in H;
      try discriminate H.
    eapply IH; [eapply compile_char_inv; eauto | exact H].
Qed.

Lemma cstate_init_inv : compile_inv cstate_init.
Proof.
  split; [split|]; simpl.
  - intros s Hs. by apply elem_of_nil in Hs.
  - exact I.
  - intros i ins Hi. discriminate.
  - intros j ins Hj. discriminate.
  - intros s i ins Hs. by apply elem_of_nil in Hs.
  - intros op Hop. discriminate.
Qed.

(** C4 (amended): with [loop_set_jump] off, every [JZ] at [i] with offset
    [d > 0] in the output of [compile] has a [JNZ] with offset [-d] at
    [i + d], and every [JNZ] at [j] with offset [-d < 0] has a [JZ] with
    offset [d] at [j - d]. *)
Theorem compile_jumps_paired src opts p :
  loop_set_jump opts = false -> compile src opts = Done (Some p) -> jumps_paired p.
Proof.
  intros Hsj H. unfold compile in H.
  destruct (compile_chars opts (list_ascii_of_string src) cstate_init) as [[st|]|] eqn:Ec;
    cbn [rbind] in H; try discriminate H.
  destruct (compile_chars_inv _ _ _ _ Hsj cstate_init_inv Ec) as [Hinv Hacc].
  cbv zeta in H.
  destruct (length (jumps st) =? 0)%nat eqn:Ej; [|discriminate H].
  injection H as Hp.
  assert (Hp' : instrs_inv p (jumps st)).
  { rewrite <- Hp. destruct (accumulating st) as [op|] eqn:Ea; [|exact Hinv].
    apply inv_app_no_jumps; [exact Hinv|].
    constructor; [exact (Hacc op eq_refl) | constructor]. }
  split; [exact (inv_jz _ _ Hp') | exact (inv_jnz _ _ Hp')].
Qed.

Lemma compile_jumps_paired_witness :
  loop_set_jump set_zero_options = false /\
  compile "++[>+[-<]<[>]-]."%string set_zero_options =
    Done (Some [mkInstr Add 2 0; mkInstr JZ 0 12; mkInstr Right 1 0; mkInstr Add 1 0;
                mkInstr JZ 0 3; mkInstr Sub 1 0; mkInstr Left 1 0; mkInstr JNZ 0 (-3);
                mkInstr Left 1 0; mkInstr JZ 0 2; mkInstr Right 1 0; mkInstr JNZ 0 (-2);
                mkInstr Sub 1 0; mkInstr JNZ 0 (-12); mkInstr PutCh 1 0]) /\
  jumps_paired [mkInstr Add 2 0; mkInstr JZ 0 12; mkInstr Right 1 0; mkInstr Add 1 0;
                mkInstr JZ 0 3; mkInstr Sub 1 0; mkInstr Left 1 0; mkInstr JNZ 0 (-3);
                mkInstr Left 1 0; mkInstr JZ 0 2; mkInstr Right 1 0; mkInstr JNZ 0 (-2);
                mkInstr Sub 1 0; mkInstr JNZ 0 (-12); mkInstr PutCh 1 0].
Proof.
  split; [reflexivity|]. split; [vm_compute; reflexivity|].
  apply (compile_jumps_paired "++[>+[-<]<[>]-]."%string set_zero_options);
    [reflexivity | vm_compute; reflexivity].
Defined.

Lemma copy_multiply_scenario_witness :
  loop_copy_multiply default_options = true /\
  (fuse_adjacent default_options = true ->
   compile "++[->++<]"%string default_options =
     Done (Some [mkInstr Add 2 0; mkInstr CMul 2 1; mkInstr Set_ 0 0])) /\
  (fuse_adjacent default_options = false ->
   compile "++[->++<]"%string default_options =
     Done (Some [mkInstr Add 1 0; mkInstr Add 1 0; mkInstr CMul 1 1;
                 mkInstr CMul 1 1; mkInstr Set_ 0 0])) /\
  exists p, compile "++[->++<]"%string default_options = Done (Some p) /\
    halted_cell (run p [] 100) 0 = Some 0 /\
    halted_cell (run p [] 100) 1 = Some 4.
Proof.
  split; [reflexivity|]. apply copy_multiply_scenario. reflexivity.
Defined.

(** *** The compiler's state invariant, for every option set *)

Lemma opcode_of_cases c op :
  opcode_of c = Some op -> is_fusible op = true \/ op = JZ \/ op = JNZ.
Proof.
  destruct c as [[] [] [] [] [] [] [] []]; cbn; intros H; try discriminate H;
    injection H as <-; auto.
Qed.

Lemma instr_wf_acc op n :
  is_fusible op = true -> 1 <= n <= 255 -> instr_wf (mkInstr op n 0).
Proof. destruct op; cbn; intros Hf Hn; first [discriminate Hf | exact Hn]. Qed.

Lemma u8_wrap_range z : 0 <= u8_wrap z <= 255.
Proof. unfold u8_wrap. pose proof (Z.mod_pos_bound z 256). lia. Qed.

Lemma store_acc_wf opts l acc_op n l' :
  Forall instr_wf l -> is_fusible acc_op = true -> 1 <= n <= 255 ->
  store_acc opts l acc_op n = Done l' -> Forall instr_wf l'.
Proof.
  intros Hl Hf Hn. unfold store_acc. cbv zeta.
  assert (Hpush : Forall instr_wf (l ++ [mkInstr acc_op n 0])).
  { apply Forall_app. split; [exact Hl|]. constructor; [|constructor].
    apply instr_wf_acc; assumption. }
  destruct (_ && _); [|intros [= <-]; exact Hpush].
  unfold vec_get. destruct (l !! (length l - 1)%nat) as [prior|] eqn:Ep;
    cbn [rbind]; [|discriminate].
  destruct (opcode prior) eqn:Eop; try (intros [= <-]; exact Hpush).
  destruct acc_op; try (intros [= <-]; exact Hpush);
    unfold vec_update; rewrite Ep; intros [= <-]; apply Forall_insert; try exact Hl;
    unfold instr_wf, set_arg; cbn; rewrite Eop;
    first [apply (u8_wrap_range (arg prior + n)) | apply (u8_wrap_range (arg prior - n))].
Qed.

(** [store_acc] keeps the opcode and offset of every stored instruction. *)
Lemma store_acc_agree opts l acc_op n l' :
  store_acc opts l acc_op n = Done l' -> agree l l'.
Proof.
  intros H. destruct (store_acc_cases _ _ _ _ _ H) as [(k & a & Hk)| ->].
  - unfold vec_update in Hk. destruct (l !! k) as [x|] eqn:Ex; [|discriminate].
    injection Hk as <-. pose proof (lookup_lt_Some _ _ _ Ex) as Hlt.
    intros i y Hy. destruct (decide (i = k)) as [->|Hne].
    + exists (set_arg a x). rewrite list_lookup_insert_eq by exact Hlt.
      rewrite Ex in Hy. injection Hy as <-. split; [reflexivity | split; reflexivity].
    + exists y. rewrite list_lookup_insert_ne by congruence.
      split; [exact Hy | split; reflexivity].
  - intros i x Hx. exists x. split; [by apply lookup_app_l_Some | split; reflexivity].
Qed.

Lemma store_acc_no_panic opts l acc_op n : store_acc opts l acc_op n <> Panicked.
Proof.
  unfold store_acc. cbv zeta. destruct (_ && _) eqn:E; [|discriminate].
  apply andb_true_iff in E as [E _]. apply Nat.ltb_lt in E.
  destruct (lookup_lt_is_Some_2 l (length l - 1)) as [x Hx]; [lia|].
  unfold vec_get. rewrite Hx. cbn [rbind].
  destruct (opcode x), acc_op; try discriminate; unfold vec_update; rewrite Hx; discriminate.
Qed.

Lemma flush_jumps opts op st st1 :
  flush opts op st = Done st1 -> jumps st1 = jumps st.
Proof.
  unfold flush. destruct (accumulating st); [|intros [= <-]; reflexivity].
  destruct (_ || _ || _); [|intros [= <-]; reflexivity].
  destruct (store_acc _ _ _ _); cbn [rbind]; [|discriminate]. intros [= <-]. reflexivity.
Qed.

Lemma flush_wf opts op st st1 :
  cstate_wf st -> flush opts op st = Done st1 ->
  cstate_wf st1 /\ 0 <= accumulated st1 <= 254.
Proof.
  intros Hwf. unfold flush. destruct (accumulating st) as [acc_op|] eqn:Ea.
  - destruct (wf_acc_some _ Hwf acc_op Ea) as [Hfus Hn].
    destruct (negb (op_eqb acc_op op) || (accumulated st =? 255) || negb (fuse_adjacent opts))
      eqn:Ec.
    + destruct (store_acc opts (instrs st) acc_op (accumulated st)) as [l'|] eqn:Es;
        cbn [rbind]; [|discriminate].
      intros [= <-]. pose proof (store_acc_agree _ _ _ _ _ Es) as Hag.
      split; [|simpl; lia].
      constructor; simpl.
      * eapply store_acc_wf; [exact (wf_instrs _ Hwf) | exact Hfus | exact Hn | exact Es].
      * intros s Hs. destruct (wf_open _ Hwf s Hs) as (ins & Hi & Hop).
        destruct (Hag s ins Hi) as (y & Hy & [E _]). exists y. split; [exact Hy | congruence].
      * eapply desc_below_mono; [exact (wf_desc _ Hwf) | apply agree_length, Hag].
      * intros ? ?. discriminate.
      * reflexivity.
    + intros [= <-]. split; [exact Hwf|].
      apply orb_false_iff in Ec as [Ec _]. apply orb_false_iff in Ec as [_ Ec].
      apply Z.eqb_neq in Ec. lia.
  - intros [= <-]. split; [exact Hwf|]. rewrite (wf_acc_none _ Hwf Ea). lia.
Qed.

Lemma copy_multiply_walk_wf fd ds o l fd' ds' o' :
  Forall instr_wf l -> 0 <= o -> Forall delta_ok ds ->
  copy_multiply_walk fd ds o l = Some (fd', ds', o') -> Forall delta_ok ds'.
Proof.
  revert fd ds o. induction l as [|i l IH]; intros fd ds o Hl Ho Hds H; cbn [copy_multiply_walk] in H.
  - injection H as _ <- _. exact Hds.
  - inversion Hl as [|? ? Hi Hl']; subst. unfold instr_wf in Hi.
    destruct (opcode i); try discriminate H.
    + destruct (negb (o =? 0)) eqn:Eo; (eapply IH; [exact Hl' | exact Ho | | exact H]);
        [|exact Hds].
      apply Forall_app. split; [exact Hds|]. constructor; [|constructor].
      apply negb_true_iff, Z.eqb_neq in Eo. unfold delta_ok; cbn.
      rewrite Z.abs_eq by lia. lia.
    + destruct (negb (o =? 0)) eqn:Eo; (eapply IH; [exact Hl' | exact Ho | | exact H]);
        [|exact Hds].
      apply Forall_app. split; [exact Hds|]. constructor; [|constructor].
      apply negb_true_iff, Z.eqb_neq in Eo. unfold delta_ok; cbn.
      rewrite Z.abs_opp, Z.abs_eq by lia. lia.
    + destruct (o >=? arg i) eqn:E; [|discriminate H].
      apply Z.geb_le in E. apply (IH fd ds (o - arg i)); [exact Hl' | lia | exact Hds | exact H].
    + apply (IH fd ds (o + arg i)); [exact Hl' | lia | exact Hds | exact H].
Qed.

Lemma cm_instr_wf d : delta_ok d -> instr_wf (cm_instr d).
Proof.
  destruct d as [del o]. unfold delta_ok, cm_instr, instr_wf, u8_wrap; cbn.
  intros [Hd Ho]. destruct (del <? 0) eqn:E; cbn.
  - apply Z.ltb_lt in E. rewrite Z.abs_neq in Hd by lia.
    rewrite Z.mod_small by lia. lia.
  - apply Z.ltb_ge in E. rewrite Z.abs_eq in Hd by lia.
    rewrite Z.mod_small by lia. lia.
Qed.

Lemma slice_wf code lo hi : Forall instr_wf code -> Forall instr_wf (slice code lo hi).
Proof. intros H. unfold slice. apply Forall_take, Forall_drop, H. Qed.

Lemma set_jump_wf code start opts l :
  Forall instr_wf code -> (exists x, code !! start = Some x /\ opcode x = JZ) ->
  set_jump code start opts = Done (Some l) -> Forall instr_wf l.
Proof.
  intros Hc (x & Hx & Hop). unfold set_jump.
  destruct (negb _); [discriminate|].
  destruct (if (start =? 0)%nat then _ else _) as [b1|]; cbn [rbind]; [|discriminate].
  destruct (if (length code <? 2)%nat then _ else _) as [b2|]; cbn [rbind]; [|discriminate].
  destruct (_ && _ && _). { intros [= <-]. constructor. }
  destruct (op_eqb _ _); [|discriminate].
  pose proof (slice_wf code start (length code - 2) Hc) as Hs.
  destruct (arg b2 =? 0).
  - unfold vec_update.
    destruct (slice code start (length code - 2) !! 0%nat) as [y|] eqn:Ey;
      cbn [rbind]; [|discriminate].
    intros [= <-]. apply Forall_insert; [exact Hs|].
    unfold slice in Ey. apply lookup_take_Some in Ey as [Ey _].
    rewrite lookup_drop, Nat.add_0_r, Hx in Ey. injection Ey as <-.
    pose proof (Forall_lookup_1 _ _ _ _ Hc Hx) as Hxw.
    unfold instr_wf, set_off in *. cbn. rewrite Hop in *. exact Hxw.
  - destruct (vec_get code (length code - 1)) as [last|]; cbn [rbind]; [|discriminate].
    intros [= <-]. apply Forall_app. split; [exact Hs|]. constructor; [reflexivity | constructor].
Qed.

Lemma optimise_loop_wf code start opts l :
  Forall instr_wf code -> (exists x, code !! start = Some x /\ opcode x = JZ) ->
  optimise_loop code start opts = Done (Some l) -> Forall instr_wf l.
Proof.
  intros Hc Hx. unfold optimise_loop.
  destruct (seek_lr code start opts) as [c|] eqn:Ec; cbn [rbind]; [|discriminate].
  destruct (set_jump code start opts) as [d|] eqn:Ed; cbn [rbind]; [|discriminate].
  intros [= H].
  destruct (set_zero code start opts) eqn:Ea; cbn in H.
  { injection H as <-. unfold set_zero in Ea.
    destruct (negb _); [discriminate|]. destruct (set_zero_delta _ _); [|discriminate].
    destruct (negb _); [|discriminate]. injection Ea as <-.
    constructor; [cbn; lia | constructor]. }
  destruct (copy_multiply code start opts) eqn:Eb; cbn in H.
  { injection H as <-. unfold copy_multiply in Eb.
    destruct (negb _); [discriminate|]. destruct (_ <=? _)%nat; [discriminate|].
    destruct (copy_multiply_walk _ _ _ _) as [[[fd ds] o]|] eqn:Ew; [|discriminate].
    destruct (negb (o =? 0)); [discriminate|]. destruct (negb (fd =? -1)); [discriminate|].
    injection Eb as <-. apply Forall_app. split; [|constructor; [cbn; lia | constructor]].
    apply Forall_forall. intros z Hz.
    apply list_elem_of_In, in_map_iff in Hz as (d' & <- & Hd').
    apply cm_instr_wf.
    assert (Hds : Forall delta_ok ds).
    { refine (copy_multiply_walk_wf 0 [] 0 _ _ _ _ (slice_wf _ _ _ Hc) _ _ Ew);
        [lia | constructor]. }
    rewrite Forall_forall in Hds. apply Hds, list_elem_of_In, Hd'. }
  destruct c as [l'|]; cbn in H.
  { injection H as <-. unfold seek_lr in Ec.
    destruct (negb _); [discriminate|]. destruct (negb _); [discriminate|].
    destruct (vec_get code (start + 1)) as [i|]; cbn [rbind] in Ec; [|discriminate].
    injection Ec as Ec.
    destruct (opcode i); try discriminate; destruct (arg i =? 1); try discriminate;
      injection Ec as <-; repeat constructor. }
  destruct d as [l''|]; [|discriminate]. injection H as <-.
  eapply set_jump_wf; eauto.
Qed.

Lemma optimise_loop_no_panic code start opts :
  loop_set_jump opts = false -> optimise_loop code start opts <> Panicked.
Proof.
  intros Hsj. unfold optimise_loop, seek_lr, set_jump. rewrite Hsj. cbn [negb rbind].
  destruct (negb (loop_seek_lr opts)); cbn [rbind]; [discriminate|].
  destruct (negb (length code =? start + 3)%nat) eqn:E; cbn [rbind]; [discriminate|].
  apply negb_false_iff, Nat.eqb_eq in E.
  destruct (lookup_lt_is_Some_2 code (start + 1)) as [i Hi]; [lia|].
  unfold vec_get. rewrite Hi. cbn [rbind]. discriminate.
Qed.

Lemma compile_char_wf opts st c st' :
  cstate_wf st -> compile_char opts st c = Done (Some st') -> cstate_wf st'.
Proof.
  intros Hst H. unfold compile_char in H.
  destruct (opcode_of c) as [op|]; [|injection H as <-; exact Hst].
  destruct (flush opts op st) as [st1|] eqn:Ef; cbn [rbind] in H; [|discriminate].
  destruct (flush_wf _ _ _ _ Hst Ef) as (Hw & Hle).
  destruct op; try discriminate H.
  1-6: destruct (_ >? 255) eqn:Eb; [discriminate H|]; injection H as <-;
    constructor; cbn;
    [exact (wf_instrs _ Hw) | exact (wf_open _ Hw) | exact (wf_desc _ Hw)
    | intros ? [= <-]; split; [reflexivity | lia] | discriminate].
  - injection H as <-. constructor; cbn.
    + apply Forall_app. split; [exact (wf_instrs _ Hw) | constructor; [reflexivity | constructor]].
    + intros s Hs. apply elem_of_cons in Hs as [->|Hs].
      * eexists. rewrite lookup_app_r, Nat.sub_diag by lia. split; reflexivity.
      * destruct (wf_open _ Hw s Hs) as (ins & Hi & Ho). exists ins.
        split; [by apply lookup_app_l_Some | exact Ho].
    + rewrite length_app. cbn. split; [lia | exact (wf_desc _ Hw)].
    + exact (wf_acc_some _ Hw).
    + exact (wf_acc_none _ Hw).
  - pose proof (wf_open _ Hw) as Hopen. pose proof (wf_desc _ Hw) as Hd.
    destruct (jumps st1) as [|start js] eqn:Ej; [discriminate H|]. cbv zeta in H.
    destruct (Hopen start) as (x & Hx & Hopx); [by apply elem_of_cons; left|].
    destruct Hd as [Hlt Hd].
    unfold vec_update at 1 in H. rewrite lookup_app_l, Hx in H by exact Hlt.
    cbn [rbind] in H.
    set (instrs3 := <[start := _]> _) in H.
    assert (H3wf : Forall instr_wf instrs3).
    { apply Forall_insert.
      - apply Forall_app. split; [exact (wf_instrs _ Hw) | constructor; [reflexivity | constructor]].
      - pose proof (Forall_lookup_1 _ _ _ _ (wf_instrs _ Hw) Hx) as Hxw.
        unfold instr_wf, set_off in *. cbn. rewrite Hopx in *. exact Hxw. }
    assert (Hlen3 : length instrs3 = S (length (instrs st1))).
    { unfold instrs3. rewrite length_insert, length_app. cbn. lia. }
    assert (H3js : forall s, s ∈ js -> instrs3 !! s = instrs st1 !! s).
    { intros s Hs. pose proof (desc_below_lt _ _ _ Hd Hs).
      unfold instrs3. rewrite list_lookup_insert_ne by lia. apply lookup_app_l. lia. }
    assert (H3x : exists x', instrs3 !! start = Some x' /\ opcode x' = JZ).
    { eexists. unfold instrs3. rewrite list_lookup_insert_eq by (rewrite length_app; cbn; lia).
      split; [reflexivity | exact Hopx]. }
    destruct (optimise_loop instrs3 start opts) as [opt|] eqn:Eo; cbn [rbind] in H;
      [|discriminate H].
    injection H as <-.
    destruct opt as [optimised|]; constructor; cbn.
    + apply Forall_app. split; [apply Forall_take, H3wf|].
      eapply optimise_loop_wf; [exact H3wf | exact H3x | exact Eo].
    + intros s Hs. pose proof (desc_below_lt _ _ _ Hd Hs).
      destruct (Hopen s) as (ins & Hi & Ho); [by apply elem_of_cons; right|].
      exists ins. split; [|exact Ho]. apply lookup_app_l_Some, lookup_take_Some.
      split; [rewrite H3js; assumption | lia].
    + eapply desc_below_mono; [exact Hd|]. rewrite length_app, length_take. lia.
    + exact (wf_acc_some _ Hw).
    + exact (wf_acc_none _ Hw).
    + exact H3wf.
    + intros s Hs. destruct (Hopen s) as (ins & Hi & Ho); [by apply elem_of_cons; right|].
      exists ins. rewrite H3js by exact Hs. split; assumption.
    + eapply desc_below_mono; [exact Hd|]. lia.
    + exact (wf_acc_some _ Hw).
    + exact (wf_acc_none _ Hw).
Qed.

Lemma compile_char_depth opts st c r :
  compile_char opts st c = Done r ->
  bracket_step c (length (jumps st)) =
    match r with None => None | Some st' => Some (length (jumps st')) end.
Proof.
  unfold compile_char, bracket_step.
  destruct (opcode_of c) as [op|]; [|intros [= <-]; reflexivity].
  destruct (flush opts op st) as [st1|] eqn:Ef; cbn [rbind]; [|discriminate].
  pose proof (flush_jumps _ _ _ _ Ef) as Ej.
  destruct op; try discriminate.
  1-6: destruct (_ >? 255); [discriminate|]; intros [= <-]; cbn; congruence.
  - intros [= <-]. cbn. congruence.
  - rewrite Ej. destruct (jumps st) as [|start js]; [intros [= <-]; reflexivity|].
    cbv zeta. destruct (vec_update _ _ _); cbn [rbind]; [|discriminate].
    destruct (optimise_loop _ _ _); cbn [rbind]; [|discriminate].
    intros [= <-]. reflexivity.
Qed.

Lemma compile_char_no_panic opts st c :
  loop_set_jump opts = false -> cstate_wf st -> compile_char opts st c <> Panicked.
Proof.
  intros Hsj Hst. unfold compile_char.
  destruct (opcode_of c) as [op|] eqn:Eop; [|discriminate].
  destruct (flush opts op st) as [st1|] eqn:Ef; cbn [rbind].
  2:{ unfold flush in Ef. destruct (accumulating st); [|discriminate].
      destruct (_ || _ || _); [|discriminate].
      destruct (store_acc _ _ _ _) eqn:Es; cbn [rbind] in Ef; [discriminate|].
      exfalso. exact (store_acc_no_panic _ _ _ _ Es). }
  destruct (flush_wf _ _ _ _ Hst Ef) as (Hw & Hle).
  destruct (opcode_of_cases c op Eop) as [Hf|[->| ->]].
  - destruct op; try discriminate Hf;
      destruct (_ >? 255) eqn:E; try discriminate; apply Z.gtb_lt in E; lia.
  - discriminate.
  - pose proof (wf_open _ Hw) as Hopen. pose proof (wf_desc _ Hw) as Hd.
    destruct (jumps st1) as [|start js] eqn:Ej; [discriminate|]. cbv zeta.
    destruct (Hopen start) as (x & Hx & _); [by apply elem_of_cons; left|].
    destruct Hd as [Hlt _].
    unfold vec_update at 1. rewrite lookup_app_l, Hx by exact Hlt. cbn [rbind].
    destruct (optimise_loop _ start opts) eqn:Eo; cbn [rbind]; [discriminate|].
    exfalso. exact (optimise_loop_no_panic _ _ _ Hsj Eo).
Qed.

Lemma compile_chars_wf opts cs st r :
  cstate_wf st -> compile_chars opts cs st = Done r ->
  match r with
  | None => bracket_depth (length (jumps st)) cs = None
  | Some st' => cstate_wf st' /\ bracket_depth (length (jumps st)) cs = Some (length (jumps st'))
  end.
Proof.
  revert st. induction cs as [|c cs IH]; intros st Hst H; cbn [compile_chars] in H;
    cbn [bracket_depth].
  - injection H as <-. split; [exact Hst | reflexivity].
  - destruct (compile_char opts st c) as [[st1|]|] eqn:Ec; cbn [rbind] in H; [| |discriminate H].
    + rewrite (compile_char_depth _ _ _ _ Ec).
      apply IH; [eapply compile_char_wf; eauto | exact H].
    + injection H as <-. rewrite (compile_char_depth _ _ _ _ Ec). reflexivity.
Qed.

Lemma compile_chars_no_panic opts cs st :
  loop_set_jump opts = false -> cstate_wf st -> compile_chars opts cs st <> Panicked.
Proof.
  intros Hsj. revert st. induction cs as [|c cs IH]; intros st Hst; cbn [compile_chars];
    [discriminate|].
  destruct (compile_char opts st c) as [[st1|]|] eqn:Ec; cbn [rbind].
  - apply IH. eapply compile_char_wf; eauto.
  - discriminate.
  - exfalso. exact (compile_char_no_panic _ _ _ Hsj Hst Ec).
Qed.

Lemma cstate_init_wf : cstate_wf cstate_init.
Proof.
  constructor; cbn; [constructor | intros s Hs; by apply elem_of_nil in Hs | exact I
                    | intros ? ?; discriminate | reflexivity].
Qed.

(** A result of [compile] that is not a panic answers the bracket check. *)
Lemma compile_result_brackets src opts r :
  compile src opts = Done r -> (r = None <-> balanced src = false).
Proof.
  unfold compile, balanced.
  destruct (compile_chars opts (list_ascii_of_string src) cstate_init) as [[st|]|] eqn:Ec;
    cbn [rbind]; [| |discriminate].
  - pose proof (compile_chars_wf _ _ _ _ cstate_init_wf Ec) as [_ Hd].
    cbn in Hd. rewrite Hd. cbv zeta.
    destruct (length (jumps st)); cbn; intros [= <-]; split; congruence.
  - pose proof (compile_chars_wf _ _ _ _ cstate_init_wf Ec) as Hd.
    cbn in Hd. rewrite Hd. intros [= <-]. split; reflexivity.
Qed.

(** *** Extra properties of [compile] *)

(** Every instruction [compile] returns keeps its fields in range: a
    run-length instruction counts 1 to 255 commands, a [CMul] or [CNMul]
    has a factor from 1 to 255 and a target strictly to the right of the
    current cell, a [Set] value is a byte, and the other instructions carry
    [arg = 0]; for every option set. *)
Theorem compile_output_wf src opts p :
  compile src opts = Done (Some p) -> Forall instr_wf p.
Proof.
  unfold compile.
  destruct (compile_chars opts (list_ascii_of_string src) cstate_init) as [[st|]|] eqn:Ec;
    cbn [rbind]; try discriminate.
  destruct (compile_chars_wf _ _ _ _ cstate_init_wf Ec) as [Hw _].
  cbv zeta. destruct (_ =? 0)%nat; [|discriminate]. intros [= <-].
  destruct (accumulating st) as [op|] eqn:Ea; [|exact (wf_instrs _ Hw)].
  apply Forall_app. split; [exact (wf_instrs _ Hw) | constructor; [|constructor]].
  destruct (wf_acc_some _ Hw op Ea). apply instr_wf_acc; assumption.
Qed.

Lemma compile_output_wf_witness :
  compile "++[->++<]"%string default_options =
    Done (Some [mkInstr Add 2 0; mkInstr CMul 2 1; mkInstr Set_ 0 0]) /\
  Forall instr_wf [mkInstr Add 2 0; mkInstr CMul 2 1; mkInstr Set_ 0 0].
Proof.
  assert (H : compile "++[->++<]"%string default_options =
    Done (Some [mkInstr Add 2 0; mkInstr CMul 2 1; mkInstr Set_ 0 0]))
    by (vm_compute; reflexivity).
  split; [exact H | exact (compile_output_wf _ _ _ H)].
Defined.

(** Whatever the options, a result of [compile] that is not a panic is
    [None] exactly when the brackets are unbalanced. *)
Theorem compile_none_iff_unbalanced src opts r :
  compile src opts = Done r -> (r = None <-> balanced src = false).
Proof. apply compile_result_brackets. Qed.

Lemma compile_none_iff_unbalanced_witness :
  compile "+["%string default_options = Done None /\ (@None (list Instr) = None <-> balanced "+["%string = false).
Proof.
  assert (H : compile "+["%string default_options = Done None) by (vm_compute; reflexivity).
  split; [exact H | exact (compile_none_iff_unbalanced _ _ _ H)].
Defined.

(** With [loop_set_jump] off, [compile] never panics: it returns an
    instruction vector for a balanced source and [None] otherwise. *)
Theorem compile_total_without_set_jump src opts :
  loop_set_jump opts = false ->
  (balanced src = true -> exists p, compile src opts = Done (Some p)) /\
  (balanced src = false -> compile src opts = Done None).
Proof.
  intros Hsj.
  assert (Hnp : compile src opts <> Panicked).
  { unfold compile.
    destruct (compile_chars opts (list_ascii_of_string src) cstate_init) eqn:Ec;
      cbn [rbind]; [destruct a; discriminate|].
    exfalso. exact (compile_chars_no_panic _ _ _ Hsj cstate_init_wf Ec). }
  destruct (compile src opts) as [r|] eqn:Er; [|congruence].
  pose proof (compile_result_brackets _ _ _ Er) as Hr.
  split.
  - intros Hb. destruct r as [p|]; [eexists; reflexivity|].
    destruct Hr as [Hr _]. rewrite (Hr eq_refl) in Hb. discriminate.
  - intros Hb. apply Hr in Hb. subst r. reflexivity.
Qed.

Lemma compile_total_without_set_jump_witness :
  loop_set_jump set_zero_options = false /\
  (balanced "[]]"%string = true -> exists p, compile "[]]"%string set_zero_options = Done (Some p)) /\
  (balanced "[]]"%string = false -> compile "[]]"%string set_zero_options = Done None).
Proof.
  split; [reflexivity|]. apply compile_total_without_set_jump. reflexivity.
Defined.

Lemma compile_chars_filter opts cs st :
  compile_chars opts (List.filter is_command cs) st = compile_chars opts cs st.
Proof.
  revert st. induction cs as [|c cs IH]; intros st; [reflexivity|].
  cbn [List.filter]. destruct (is_command c) eqn:Ec; cbn [compile_chars].
  - destruct (compile_char opts st c) as [[st1|]|]; cbn [rbind]; [apply IH | reflexivity | reflexivity].
  - unfold is_command in Ec. unfold compile_char at 1.
    destruct (opcode_of c); [discriminate|]. cbn [rbind]. apply IH.
Qed.

(** Characters other than the eight commands do not change what [compile]
    does: the source with them removed gives the same result. *)
Theorem compile_ignores_non_commands src opts :
  compile (strip_comments src) opts = compile src opts.
Proof.
  unfold compile, strip_comments. rewrite list_ascii_of_string_of_list_ascii.
  rewrite compile_chars_filter. reflexivity.
Qed.

Lemma flush_no_options_props op st st1 :
  cstate_wf st -> (forall a, accumulating st = Some a -> accumulated st = 1) ->
  flush no_options op st = Done st1 ->
  accumulating st1 = None /\ jumps st1 = jumps st /\
  map opcode (instrs st1) = map opcode (instrs st) ++ option_list (accumulating st) /\
  (unit_counts (instrs st) -> unit_counts (instrs st1)).
Proof.
  intros Hw H1. unfold flush. destruct (accumulating st) as [a|] eqn:Ea.
  - cbn [negb fuse_adjacent no_options]. rewrite orb_true_r.
    unfold store_acc. cbn [fuse_set_add no_options]. rewrite andb_false_r. cbn [rbind].
    intros [= <-]. cbn. split; [reflexivity | split; [reflexivity|]].
    rewrite map_app. split; [reflexivity|].
    intros Hu. apply Forall_app. split; [exact Hu|]. constructor; [|constructor].
    intros _. exact (H1 a eq_refl).
  - intros [= <-]. rewrite Ea. cbn. rewrite app_nil_r. auto.
Qed.

Lemma map_opcode_insert l i y x :
  l !! i = Some x -> opcode y = opcode x -> map opcode (<[i := y]> l) = map opcode l.
Proof.
  revert i. induction l as [|z l IH]; intros [|i] Hx Hy; cbn in *; try discriminate.
  - injection Hx as ->. congruence.
  - f_equal. apply IH; assumption.
Qed.

Lemma optimise_loop_no_options code start : optimise_loop code start no_options = Done None.
Proof. reflexivity. Qed.

Lemma compile_char_no_options st c st' :
  cstate_wf st -> unit_counts (instrs st) ->
  (forall op, accumulating st = Some op -> accumulated st = 1) ->
  compile_char no_options st c = Done (Some st') ->
  map opcode (instrs st') ++ option_list (accumulating st') =
    map opcode (instrs st) ++ option_list (accumulating st) ++ option_list (opcode_of c) /\
  unit_counts (instrs st') /\
  (forall op, accumulating st' = Some op -> accumulated st' = 1).
Proof.
  intros Hw Hu H1 H. unfold compile_char in H.
  destruct (opcode_of c) as [op|] eqn:Eop.
  2:{ injection H as <-. cbn. rewrite !app_nil_r. auto. }
  destruct (flush no_options op st) as [st1|] eqn:Ef; cbn [rbind] in H; [|discriminate].
  destruct (flush_no_options_props _ _ _ Hw H1 Ef) as (A1 & J1 & E1 & U1).
  specialize (U1 Hu).
  destruct (flush_wf _ _ _ _ Hw Ef) as [Hw1 _].
  pose proof (wf_acc_none _ Hw1 A1) as Z1.
  destruct (opcode_of_cases c op Eop) as [Hf|[->| ->]].
  - destruct op; try discriminate Hf; rewrite Z1 in H; cbn in H; injection H as <-;
      cbn [instrs accumulating accumulated option_list];
      (split; [rewrite E1, <- app_assoc; reflexivity | split; [exact U1 | intros ? _; reflexivity]]).
  - injection H as <-. cbn [instrs accumulating accumulated option_list].
    rewrite A1, map_app, E1. cbn. rewrite <- !app_assoc. split; [reflexivity|].
    split; [|intros ? ?; discriminate].
    apply Forall_app. split; [exact U1 | constructor; [intros Hx; discriminate Hx | constructor]].
  - pose proof (wf_open _ Hw1) as Hopen. pose proof (wf_desc _ Hw1) as Hd.
    destruct (jumps st1) as [|start js] eqn:Ej; [discriminate H|]. cbv zeta in H.
    destruct (Hopen start) as (x & Hx & Hopx); [by apply elem_of_cons; left|].
    destruct Hd as [Hlt _].
    unfold vec_update at 1 in H. rewrite lookup_app_l, Hx in H by exact Hlt.
    cbn [rbind] in H. rewrite optimise_loop_no_options in H. cbn [rbind] in H.
    injection H as <-. cbn [instrs accumulating accumulated option_list].
    rewrite (map_opcode_insert _ _ _ x); [|apply lookup_app_l_Some, Hx | reflexivity].
    rewrite A1, map_app, E1. cbn. rewrite <- !app_assoc. split; [reflexivity|].
    split; [|intros ? ?; discriminate].
    apply Forall_insert.
    + apply Forall_app. split; [exact U1 | constructor; [intros Hj; discriminate Hj | constructor]].
    + unfold set_off. cbn. rewrite Hopx. intros Hj; discriminate Hj.
Qed.

Lemma omap_cons_option {A B} (f : A -> option B) x l :
  omap f (x :: l) = option_list (f x) ++ omap f l.
Proof. cbn. destruct (f x); reflexivity. Qed.

Lemma compile_chars_no_options cs st st' :
  cstate_wf st -> unit_counts (instrs st) ->
  (forall op, accumulating st = Some op -> accumulated st = 1) ->
  compile_chars no_options cs st = Done (Some st') ->
  map opcode (instrs st') ++ option_list (accumulating st') =
    map opcode (instrs st) ++ option_list (accumulating st) ++ omap opcode_of cs /\
  unit_counts (instrs st') /\
  (forall op, accumulating st' = Some op -> accumulated st' = 1).
Proof.
  revert st. induction cs as [|c cs IH]; intros st Hw Hu H1 H; cbn [compile_chars] in H.
  - injection H as <-. cbn. rewrite app_nil_r. auto.
  - destruct (compile_char no_options st c) as [[st1|]|] eqn:Ec; cbn [rbind] in H;
      try discriminate H.
    destruct (compile_char_no_options _ _ _ Hw Hu H1 Ec) as (E1 & U1 & A1).
    destruct (IH st1 (compile_char_wf _ _ _ _ Hw Ec) U1 A1 H) as (E2 & U2 & A2).
    split; [|split; assumption].
    rewrite E2, omap_cons_option, app_assoc, E1, <- !app_assoc. reflexivity.
Qed.

(** With every option off, [compile] emits one instruction per command
    character, in source order, and every run-length instruction counts a
    single command. *)
Theorem compile_no_options_one_per_command src p :
  compile src no_options = Done (Some p) ->
  map opcode p = command_ops src /\ unit_counts p.
Proof.
  unfold compile, command_ops.
  destruct (compile_chars no_options (list_ascii_of_string src) cstate_init) as [[st|]|] eqn:Ec;
    cbn [rbind]; try discriminate.
  destruct (compile_chars_no_options _ _ _ cstate_init_wf ltac:(constructor)
              (fun op H => ltac:(discriminate H)) Ec) as (E & U & A).
  cbn in E. cbv zeta. destruct (_ =? 0)%nat; [|discriminate]. intros [= <-].
  destruct (accumulating st) as [op|] eqn:Ea.
  - rewrite map_app. split; [exact E|].
    apply Forall_app. split; [exact U | constructor; [|constructor]].
    intros _. exact (A op eq_refl).
  - rewrite app_nil_r in E. split; assumption.
Qed.

Lemma compile_no_options_one_per_command_witness :
  compile "+ [->+<]."%string no_options =
    Done (Some [mkInstr Add 1 0; mkInstr JZ 0 5; mkInstr Sub 1 0; mkInstr Right 1 0;
                mkInstr Add 1 0; mkInstr Left 1 0; mkInstr JNZ 0 (-5); mkInstr PutCh 1 0]) /\
  map opcode [mkInstr Add 1 0; mkInstr JZ 0 5; mkInstr Sub 1 0; mkInstr Right 1 0;
              mkInstr Add 1 0; mkInstr Left 1 0; mkInstr JNZ 0 (-5); mkInstr PutCh 1 0] =
    command_ops "+ [->+<]."%string /\
  unit_counts [mkInstr Add 1 0; mkInstr JZ 0 5; mkInstr Sub 1 0; mkInstr Right 1 0;
               mkInstr Add 1 0; mkInstr Left 1 0; mkInstr JNZ 0 (-5); mkInstr PutCh 1 0].
Proof.
  assert (H : compile "+ [->+<]."%string no_options =
    Done (Some [mkInstr Add 1 0; mkInstr JZ 0 5; mkInstr Sub 1 0; mkInstr Right 1 0;
                mkInstr Add 1 0; mkInstr Left 1 0; mkInstr JNZ 0 (-5); mkInstr PutCh 1 0]))
    by (vm_compute; reflexivity).
  split; [exact H | exact (compile_no_options_one_per_command _ _ H)].
Defined.

Lemma store_acc_push opts l op n :
  (forall x, l !! (length l - 1)%nat = Some x -> opcode x <> Set_) ->
  store_acc opts l op n = Done (l ++ [mkInstr op n 0]).
Proof.
  intros Hl. unfold store_acc. cbv zeta. destruct (_ && _) eqn:E; [|reflexivity].
  unfold vec_get. destruct (l !! (length l - 1)%nat) as [x|] eqn:Ex; cbn [rbind].
  - specialize (Hl x eq_refl).
    destruct (opcode x); try (exfalso; apply Hl; reflexivity); reflexivity.
  - apply andb_true_iff in E as [E _]. apply Nat.ltb_lt in E.
    apply lookup_ge_None in Ex. lia.
Qed.

Lemma compile_char_fusible opts st c op st1 :
  opcode_of c = Some op -> is_fusible op = true -> flush opts op st = Done st1 ->
  accumulated st1 + 1 <= 255 ->
  compile_char opts st c =
    Done (Some (mkCState (instrs st1) (jumps st1) (Some op) (accumulated st1 + 1))).
Proof.
  intros Hc Hf Hfl Hb. unfold compile_char. rewrite Hc, Hfl. cbn [rbind].
  destruct op; try discriminate Hf;
    (destruct (_ >? 255) eqn:E; [apply Z.gtb_lt in E; lia | reflexivity]).
Qed.

Lemma flush_same_op opts op l js k :
  fuse_adjacent opts = true ->
  flush opts op (mkCState l js (Some op) k) =
    if k =? 255 then
      let* l' := store_acc opts l op k in Done (mkCState l' js None 0)
    else Done (mkCState l js (Some op) k).
Proof.
  intros Hfa. unfold flush. cbn [accumulating accumulated instrs jumps].
  assert (Eop : op_eqb op op = true) by (apply bool_decide_eq_true; reflexivity).
  rewrite Eop, Hfa. cbn [negb orb]. destruct (k =? 255); reflexivity.
Qed.

Lemma compile_chars_same_op c op opts m q k :
  opcode_of c = Some op -> is_fusible op = true -> fuse_adjacent opts = true ->
  1 <= k <= 255 ->
  exists q' k',
    compile_chars opts (replicate m c)
      (mkCState (replicate q (mkInstr op 255 0)) [] (Some op) k) =
      Done (Some (mkCState (replicate q' (mkInstr op 255 0)) [] (Some op) k')) /\
    1 <= k' <= 255 /\ 255 * Z.of_nat q' + k' = 255 * Z.of_nat q + k + Z.of_nat m.
Proof.
  intros Hc Hf Hfa. revert q k. induction m as [|m IH]; intros q k Hk.
  - exists q, k. split; [reflexivity | lia].
  - cbn [replicate compile_chars]. pose proof (flush_same_op opts op
      (replicate q (mkInstr op 255 0)) [] k Hfa) as Efl.
    destruct (k =? 255) eqn:Ek.
    + apply Z.eqb_eq in Ek. subst k.
      rewrite store_acc_push in Efl.
      2:{ intros x Hx. apply lookup_replicate in Hx as [-> _]. cbn.
          intros E. rewrite E in Hf. discriminate. }
      cbn [rbind] in Efl.
      rewrite (compile_char_fusible _ _ _ _ _ Hc Hf Efl) by (cbn; lia). cbn [rbind].
      cbn [instrs jumps accumulated]. rewrite <- replicate_S_end.
      destruct (IH (S q) (0 + 1)) as (q' & k' & Er & Hk' & Hs); [lia|].
      exists q', k'. split; [exact Er | lia].
    + rewrite (compile_char_fusible _ _ _ _ _ Hc Hf Efl) by (cbn; apply Z.eqb_neq in Ek; lia).
      cbn [rbind instrs jumps accumulated].
      destruct (IH q (k + 1)) as (q' & k' & Er & Hk' & Hs); [apply Z.eqb_neq in Ek; lia|].
      exists q', k'. split; [exact Er | lia].
Qed.

(** With [fuse_adjacent] on, a run of [n >= 1] copies of one run-length
    command compiles to [(n - 1) / 255] instructions counting 255, then one
    counting the remaining [n - 255 * ((n - 1) / 255)] (from 1 to 255). *)
Theorem compile_splits_runs c op n opts :
  opcode_of c = Some op -> is_fusible op = true -> fuse_adjacent opts = true ->
  (1 <= n)%nat ->
  compile (repeat_char c n) opts =
    Done (Some (replicate ((n - 1) / 255) (mkInstr op 255 0) ++
                [mkInstr op (Z.of_nat (n - 255 * ((n - 1) / 255))) 0])).
Proof.
  intros Hc Hf Hfa Hn. unfold compile, repeat_char.
  rewrite list_ascii_of_string_of_list_ascii.
  destruct n as [|m]; [lia|]. cbn [replicate compile_chars].
  rewrite (compile_char_fusible opts cstate_init c op cstate_init Hc Hf eq_refl)
    by (cbn; lia).
  cbn [rbind].
  destruct (compile_chars_same_op c op opts m 0 1 Hc Hf Hfa ltac:(lia))
    as (q' & k' & Er & Hk' & Hs).
  cbn [replicate] in Er. cbn [instrs jumps accumulated cstate_init].
  change (0 + 1) with 1. rewrite Er. cbn [rbind accumulating instrs jumps length].
  cbv zeta. cbn [Nat.eqb].
  assert (Hq : ((S m - 1) / 255 = q')%nat).
  { symmetry. apply (Nat.div_unique _ 255 _ (Z.to_nat (k' - 1))); lia. }
  rewrite Hq. do 4 f_equal. cbn [accumulated]. f_equal. lia.
Qed.

Lemma compile_splits_runs_witness :
  opcode_of "+"%char = Some Add /\ is_fusible Add = true /\
  fuse_adjacent default_options = true /\ (1 <= 300)%nat /\
  compile (repeat_char "+"%char 300) default_options =
    Done (Some (replicate ((300 - 1) / 255) (mkInstr Add 255 0) ++
                [mkInstr Add (Z.of_nat (300 - 255 * ((300 - 1) / 255))) 0])).
Proof.
  split; [reflexivity|]. split; [reflexivity|]. split; [reflexivity|]. split; [lia|].
  apply (compile_splits_runs "+"%char Add 300 default_options); [reflexivity | reflexivity | reflexivity | lia].
Defined.

(** *** Extra properties of [run] *)



Lemma seek_right_fuel m fuel d :
  (forall i, 0 <= m i) -> 0 <= d -> tape_len < d + Z.of_nat fuel ->
  match seek_right m fuel d with
  | Done d' => d <= d' < tape_len /\ m d' = 0 /\ forall j, d <= j < d' -> 0 < m j
  | Panicked => forall j, d <= j < tape_len -> 0 < m j
  end.
Proof.
  intros Hm. revert d. induction fuel as [|fuel IH]; intros d Hd Hf; cbn [seek_right].
  - intros j Hj. lia.
  - unfold mem_get, in_tape.
    destruct ((0 <=? d) && (d <? tape_len)) eqn:Et; cbn [rbind].
    + apply andb_true_iff in Et as [_ Et]. apply Z.ltb_lt in Et.
      destruct (m d >? 0) eqn:E.
      * apply Z.gtb_lt in E. specialize (IH (d + 1) ltac:(lia) ltac:(lia)).
        destruct (seek_right m fuel (d + 1)) as [d'|].
        -- destruct IH as (H1 & H2 & H3). split; [lia | split; [exact H2|]].
           intros j Hj. destruct (Z.eq_dec j d) as [->|Hne]; [exact E | apply H3; lia].
        -- intros j Hj. destruct (Z.eq_dec j d) as [->|Hne]; [exact E | apply IH; lia].
      * rewrite Z.gtb_ltb, Z.ltb_ge in E. specialize (Hm d).
        split; [lia | split; [lia | intros; lia]].
    + intros j Hj.
      apply andb_false_iff in Et as [Et|Et]; [apply Z.leb_gt in Et | apply Z.ltb_ge in Et]; lia.
Qed.

(** [SeekR] from cell [d >= 0], with the bound [run] gives it, stops at the
    nearest zero cell at or right of [d]; it panics when no cell of
    [d, 30000) is zero. *)
Theorem seek_right_nearest_zero m d :
  (forall i, 0 <= m i) -> 0 <= d ->
  match seek_right m (S (Z.to_nat (tape_len - d))) d with
  | Done d' => d <= d' < tape_len /\ m d' = 0 /\ forall j, d <= j < d' -> 0 < m j
  | Panicked => forall j, d <= j < tape_len -> 0 < m j
  end.
Proof. intros Hm Hd. apply seek_right_fuel; [exact Hm | exact Hd | unfold tape_len; lia]. Qed.

Lemma seek_right_nearest_zero_witness :
  (forall i, 0 <= (fun i : Z => if i =? 3 then 0 else 1) i) /\ 0 <= 1 /\
  match seek_right (fun i : Z => if i =? 3 then 0 else 1) (S (Z.to_nat (tape_len - 1))) 1 with
  | Done d' => 1 <= d' < tape_len /\ (fun i : Z => if i =? 3 then 0 else 1) d' = 0 /\
               forall j, 1 <= j < d' -> 0 < (fun i : Z => if i =? 3 then 0 else 1) j
  | Panicked => forall j, 1 <= j < tape_len -> 0 < (fun i : Z => if i =? 3 then 0 else 1) j
  end.
Proof.
  assert (Hm : forall i, 0 <= (fun i : Z => if i =? 3 then 0 else 1) i)
    by (intros i; cbn; destruct (i =? 3); lia).
  split; [exact Hm|]. split; [lia|]. exact (seek_right_nearest_zero _ 1 Hm ltac:(lia)).
Defined.







(** [CMul] and [CNMul] index the target cell [dp + off] even when the
    current cell is 0: a target off the tape is a panic. *)
Theorem step_cmul_target_checked code s instr :
  code !! Z.to_nat (ip s) = Some instr ->
  (opcode instr = CMul \/ opcode instr = CNMul) ->
  in_tape (dp s + off instr) = false ->
  step code s = Panicked.
Proof.
  intros Hi Hop Ht. unfold step, vec_get. rewrite Hi. cbn [rbind]. cbv zeta.
  destruct Hop as [E|E]; rewrite E; unfold mem_get; rewrite Ht; reflexivity.
Qed.

Lemma step_cmul_target_checked_witness :
  [mkInstr CMul 1 1] !! Z.to_nat (ip (mkState 0 29999 (fun _ => 0) [] [])) = Some (mkInstr CMul 1 1) /\
  (opcode (mkInstr CMul 1 1) = CMul \/ opcode (mkInstr CMul 1 1) = CNMul) /\
  in_tape (dp (mkState 0 29999 (fun _ => 0) [] []) + off (mkInstr CMul 1 1)) = false /\
  step [mkInstr CMul 1 1] (mkState 0 29999 (fun _ => 0) [] []) = Panicked.
Proof.
  split; [reflexivity|]. split; [left; reflexivity|]. split; [reflexivity|].
  apply (step_cmul_target_checked _ _ (mkInstr CMul 1 1));
    [reflexivity | left; reflexivity | reflexivity].
Defined.

(** *** [main] *)

(** [main] never runs a source with unbalanced brackets: it prints the
    bracket error line, or panics in [compile]. *)
Theorem main_rejects_unbalanced code inp fuel :
  balanced code = false ->
  main (Some (Text code)) inp fuel =
    Exited (println "ERROR: could not compile code (are your brackets matched?") \/
  main (Some (Text code)) inp fuel = MainPanicked.
Proof.
  intros Hb. unfold main.
  destruct (compile code default_options) as [r|] eqn:Ec; [|right; reflexivity].
  destruct (compile_result_brackets _ _ _ Ec) as [_ H]. rewrite (H Hb). left; reflexivity.
Qed.

Lemma main_rejects_unbalanced_witness :
  balanced "+["%string = false /\
  (main (Some (Text "+["%string)) [] 10 =
     Exited (println "ERROR: could not compile code (are your brackets matched?") \/
   main (Some (Text "+["%string)) [] 10 = MainPanicked).
Proof.
  split; [reflexivity|]. apply main_rejects_unbalanced. reflexivity.
Defined.

(** *** A set-zero loop followed by increments *)

Lemma list_ascii_of_string_append s t :
  list_ascii_of_string (s ++ t)%string = list_ascii_of_string s ++ list_ascii_of_string t.
Proof. induction s as [|a s IH]; cbn; [reflexivity | rewrite IH; reflexivity]. Qed.

Lemma compile_chars_app opts xs ys st :
  compile_chars opts (xs ++ ys) st =
    let* r := compile_chars opts xs st in
    match r with None => Done None | Some st' => compile_chars opts ys st' end.
Proof.
  revert st. induction xs as [|x xs IH]; intros st; [reflexivity|].
  cbn [app compile_chars]. destruct (compile_char opts st x) as [[st1|]|]; cbn [rbind];
    [apply IH | reflexivity | reflexivity].
Qed.

Lemma compile_chars_adds opts l j m :
  fuse_adjacent opts = true -> 1 <= j -> j + Z.of_nat m <= 255 ->
  compile_chars opts (replicate m "+"%char) (mkCState l [] (Some Add) j) =
    Done (Some (mkCState l [] (Some Add) (j + Z.of_nat m))).
Proof.
  intros Hfa. revert j. induction m as [|m IH]; intros j Hj Hm.
  - cbn. rewrite Z.add_0_r. reflexivity.
  - cbn [replicate compile_chars].
    pose proof (flush_same_op opts Add l [] j Hfa) as Efl.
    assert (Ej : (j =? 255) = false) by (apply Z.eqb_neq; lia). rewrite Ej in Efl.
    rewrite (compile_char_fusible opts _ "+"%char Add _ eq_refl eq_refl Efl) by (cbn; lia).
    cbn [rbind instrs jumps accumulated].
    rewrite IH by lia. do 3 f_equal. lia.
Qed.

(** With [fuse_adjacent], [fuse_set_add] and [loop_set_zero] on and
    [loop_set_jump] off, ["[-]"] followed by [k] (1 to 255) ['+'] compiles
    to [Set 0] and a separate [Add k]: the final flush does not fold into
    the [Set]. A following command such as ['.'] does fold them, into
    [Set k]. *)
Theorem compile_set_zero_then_adds k opts :
  fuse_adjacent opts = true -> fuse_set_add opts = true ->
  loop_set_zero opts = true -> loop_set_jump opts = false -> (1 <= k <= 255)%nat ->
  compile ("[-]" ++ repeat_char "+"%char k)%string opts =
    Done (Some [mkInstr Set_ 0 0; mkInstr Add (Z.of_nat k) 0]) /\
  compile ("[-]" ++ repeat_char "+"%char k ++ ".")%string opts =
    Done (Some [mkInstr Set_ (Z.of_nat k) 0; mkInstr PutCh 1 0]).
Proof.
  intros Hfa Hfsa Hsz Hsj Hk.
  destruct k as [|k]; [lia|].
  assert (Hpre : forall rest,
    compile_chars opts ("["%char :: "-"%char :: "]"%char :: rest) cstate_init =
    compile_chars opts rest (mkCState [mkInstr Set_ 0 0] [] None 0)).
  { intros rest. destruct opts as [fa fsa lsz lcm lsl lsj]; cbn in Hfa, Hfsa, Hsz, Hsj; subst.
    destruct lcm, lsl; reflexivity. }
  assert (Hfirst : forall rest,
    compile_chars opts ("+"%char :: rest) (mkCState [mkInstr Set_ 0 0] [] None 0) =
    compile_chars opts rest (mkCState [mkInstr Set_ 0 0] [] (Some Add) 1)).
  { intros rest. cbn [compile_chars].
    rewrite (compile_char_fusible opts (mkCState [mkInstr Set_ 0 0] [] None 0) "+"%char Add
               (mkCState [mkInstr Set_ 0 0] [] None 0) eq_refl eq_refl eq_refl) by (cbn; lia).
    reflexivity. }
  unfold compile, repeat_char. rewrite !list_ascii_of_string_append.
  rewrite list_ascii_of_string_of_list_ascii. cbn [list_ascii_of_string replicate app].
  rewrite !Hpre, !Hfirst, compile_chars_app.
  rewrite compile_chars_adds by (first [exact Hfa | lia]).
  split.
  - cbn. do 5 f_equal. lia.
  - cbn [rbind compile_chars]. unfold compile_char at 1. cbn [opcode_of].
    unfold flush at 1. cbn [accumulating accumulated instrs jumps].
    replace (negb (op_eqb Add PutCh)) with true by reflexivity. cbn [orb].
    unfold store_acc at 1. rewrite Hfsa. cbn.
    replace (0 + 1 >? 255) with false by reflexivity. cbn.
    unfold wrapping_add, u8_wrap. rewrite Z.mod_small by lia.
    do 5 f_equal. unfold set_arg. cbn. f_equal. lia.
Qed.

Lemma compile_set_zero_then_adds_witness :
  fuse_adjacent (mkOptions true true true true true false) = true /\ fuse_set_add (mkOptions true true true true true false) = true /\
  loop_set_zero (mkOptions true true true true true false) = true /\ loop_set_jump (mkOptions true true true true true false) = false /\
  (1 <= 3 <= 255)%nat /\
  compile ("[-]" ++ repeat_char "+"%char 3)%string (mkOptions true true true true true false) =
    Done (Some [mkInstr Set_ 0 0; mkInstr Add (Z.of_nat 3) 0]) /\
  compile ("[-]" ++ repeat_char "+"%char 3 ++ ".")%string (mkOptions true true true true true false) =
    Done (Some [mkInstr Set_ (Z.of_nat 3) 0; mkInstr PutCh 1 0]).
Proof.
  do 5 (split; [first [reflexivity | lia]|]).
  apply compile_set_zero_then_adds; first [reflexivity | lia].
Defined.

(** *** Soundness of the copy/multiply rewrite *)

Lemma gtb_false a b : a <= b -> (a >? b) = false.
Proof. intros H. rewrite Z.gtb_ltb. apply Z.ltb_ge. lia. Qed.

Lemma step_right code s x :
  code !! Z.to_nat (ip s) = Some x -> opcode x = Right -> ip s + 1 <= usize_max ->
  step code s =
    Done (mkState (ip s + 1) (Z.min usize_max (dp s + arg x)) (mem s) (stdin s) (stdout s)).
Proof.
  intros Hx Hop Hip. unfold step, vec_get. rewrite Hx. cbn [rbind]. cbv zeta. rewrite Hop.
  cbn [rbind ip]. rewrite gtb_false by exact Hip. reflexivity.
Qed.

Lemma step_left code s x :
  code !! Z.to_nat (ip s) = Some x -> opcode x = Left -> ip s + 1 <= usize_max ->
  step code s =
    Done (mkState (ip s + 1) (Z.max 0 (dp s - arg x)) (mem s) (stdin s) (stdout s)).
Proof.
  intros Hx Hop Hip. unfold step, vec_get. rewrite Hx. cbn [rbind]. cbv zeta. rewrite Hop.
  cbn [rbind ip]. rewrite gtb_false by exact Hip. reflexivity.
Qed.

Lemma step_add code s x :
  code !! Z.to_nat (ip s) = Some x -> opcode x = Add -> in_tape (dp s) = true ->
  ip s + 1 <= usize_max ->
  step code s =
    Done (mkState (ip s + 1) (dp s)
            (fun k => if k =? dp s then wrapping_add (mem s (dp s)) (arg x) else mem s k)
            (stdin s) (stdout s)).
Proof.
  intros Hx Hop Ht Hip. unfold step, vec_get. rewrite Hx. cbn [rbind]. cbv zeta. rewrite Hop.
  unfold mem_get, mem_set. rewrite Ht. cbn [rbind ip]. rewrite gtb_false by exact Hip.
  reflexivity.
Qed.

Lemma step_sub code s x :
  code !! Z.to_nat (ip s) = Some x -> opcode x = Sub -> in_tape (dp s) = true ->
  ip s + 1 <= usize_max ->
  step code s =
    Done (mkState (ip s + 1) (dp s)
            (fun k => if k =? dp s then wrapping_sub (mem s (dp s)) (arg x) else mem s k)
            (stdin s) (stdout s)).
Proof.
  intros Hx Hop Ht Hip. unfold step, vec_get. rewrite Hx. cbn [rbind]. cbv zeta. rewrite Hop.
  unfold mem_get, mem_set. rewrite Ht. cbn [rbind ip]. rewrite gtb_false by exact Hip.
  reflexivity.
Qed.

Lemma step_set code s x :
  code !! Z.to_nat (ip s) = Some x -> opcode x = Set_ -> in_tape (dp s) = true ->
  ip s + 1 <= usize_max ->
  step code s =
    Done (mkState (ip s + 1) (dp s) (fun k => if k =? dp s then arg x else mem s k)
            (stdin s) (stdout s)).
Proof.
  intros Hx Hop Ht Hip. unfold step, vec_get. rewrite Hx. cbn [rbind]. cbv zeta. rewrite Hop.
  unfold mem_get, mem_set. rewrite Ht. cbn [rbind ip]. rewrite gtb_false by exact Hip.
  reflexivity.
Qed.

Lemma step_cmul code s x :
  code !! Z.to_nat (ip s) = Some x -> opcode x = CMul ->
  in_tape (dp s) = true -> in_tape (dp s + off x) = true -> ip s + 1 <= usize_max ->
  step code s =
    Done (mkState (ip s + 1) (dp s)
            (fun k => if k =? dp s + off x
                      then wrapping_add (mem s (dp s + off x)) (wrapping_mul (mem s (dp s)) (arg x))
                      else mem s k)
            (stdin s) (stdout s)).
Proof.
  intros Hx Hop Ht Ht' Hip. unfold step, vec_get. rewrite Hx. cbn [rbind]. cbv zeta. rewrite Hop.
  unfold mem_get, mem_set. rewrite Ht, Ht'. cbn [rbind ip]. rewrite gtb_false by exact Hip.
  reflexivity.
Qed.

Lemma step_cnmul code s x :
  code !! Z.to_nat (ip s) = Some x -> opcode x = CNMul ->
  in_tape (dp s) = true -> in_tape (dp s + off x) = true -> ip s + 1 <= usize_max ->
  step code s =
    Done (mkState (ip s + 1) (dp s)
            (fun k => if k =? dp s + off x
                      then wrapping_sub (mem s (dp s + off x)) (wrapping_mul (mem s (dp s)) (arg x))
                      else mem s k)
            (stdin s) (stdout s)).
Proof.
  intros Hx Hop Ht Ht' Hip. unfold step, vec_get. rewrite Hx. cbn [rbind]. cbv zeta. rewrite Hop.
  unfold mem_get, mem_set. rewrite Ht, Ht'. cbn [rbind ip]. rewrite gtb_false by exact Hip.
  reflexivity.
Qed.

Lemma step_jz code s x :
  code !! Z.to_nat (ip s) = Some x -> opcode x = JZ -> in_tape (dp s) = true ->
  ip s + 1 <= usize_max -> jump_target (ip s) (off x) + 1 <= usize_max ->
  step code s =
    Done (mkState (if mem s (dp s) =? 0 then jump_target (ip s) (off x) + 1 else ip s + 1)
            (dp s) (mem s) (stdin s) (stdout s)).
Proof.
  intros Hx Hop Ht Hip Hj. unfold step, vec_get. rewrite Hx. cbn [rbind]. cbv zeta. rewrite Hop.
  unfold mem_get. rewrite Ht. cbn [rbind].
  destruct (mem s (dp s) =? 0); cbn [rbind ip]; rewrite gtb_false by assumption; reflexivity.
Qed.

Lemma step_jnz code s x :
  code !! Z.to_nat (ip s) = Some x -> opcode x = JNZ -> in_tape (dp s) = true ->
  ip s + 1 <= usize_max -> jump_target (ip s) (off x) + 1 <= usize_max ->
  step code s =
    Done (mkState (if mem s (dp s) =? 0 then ip s + 1 else jump_target (ip s) (off x) + 1)
            (dp s) (mem s) (stdin s) (stdout s)).
Proof.
  intros Hx Hop Ht Hip Hj. unfold step, vec_get. rewrite Hx. cbn [rbind]. cbv zeta. rewrite Hop.
  unfold mem_get. rewrite Ht. cbn [rbind].
  destruct (mem s (dp s) =? 0); cbn [negb rbind ip]; rewrite gtb_false by assumption; reflexivity.
Qed.

Lemma run_from_step f code s s1 :
  ip s < Z.of_nat (length code) -> step code s = Done s1 ->
  run_from (S f) code s = run_from f code s1.
Proof. intros Hlt Hs. cbn [run_from]. apply Z.ltb_lt in Hlt. rewrite Hlt, Hs. reflexivity. Qed.

Lemma run_from_halt f code s :
  Z.of_nat (length code) <= ip s -> run_from f code s = Halted s.
Proof.
  intros H. assert (E : (ip s <? Z.of_nat (length code)) = false) by (apply Z.ltb_ge; lia).
  destruct f; cbn [run_from]; rewrite E; reflexivity.
Qed.

Lemma loop_prog_length b : length (loop_prog b) = (length b + 2)%nat.
Proof. unfold loop_prog. rewrite !length_app. cbn [length]. lia. Qed.

Lemma loop_prog_jz b : loop_prog b !! 0%nat = Some (mkInstr JZ 0 (Z.of_nat (length b) + 1)).
Proof. reflexivity. Qed.

Lemma loop_prog_body b p x l : b = p ++ x :: l -> loop_prog b !! S (length p) = Some x.
Proof.
  intros ->. unfold loop_prog. cbn [app]. rewrite lookup_cons.
  rewrite <- app_assoc. rewrite lookup_app_r by lia. rewrite Nat.sub_diag. reflexivity.
Qed.

Lemma loop_prog_jnz b :
  loop_prog b !! S (length b) = Some (mkInstr JNZ 0 (- (Z.of_nat (length b) + 1))).
Proof.
  unfold loop_prog. cbn [app]. rewrite lookup_cons.
  rewrite lookup_app_r by lia. rewrite Nat.sub_diag. reflexivity.
Qed.

Lemma body_loop_prog b : body (loop_prog b) 0 = b.
Proof.
  unfold body, slice. rewrite loop_prog_length. unfold loop_prog. cbn [app drop].
  replace (length b + 2 - 1 - (0 + 1))%nat with (length b) by lia.
  apply take_app_length.
Qed.

Lemma delta_sum_app d i ds ds' :
  delta_sum d i (ds ++ ds') = delta_sum d i ds + delta_sum d i ds'.
Proof.
  induction ds as [|[del o] ds IH]; cbn [app delta_sum]; [lia|]. rewrite IH. lia.
Qed.

Lemma delta_sum_self d ds : Forall (fun e => 1 <= snd e) ds -> delta_sum d d ds = 0.
Proof.
  induction 1 as [|[del o] ds Ho _ IH]; cbn [delta_sum]; [reflexivity|].
  cbn [snd] in Ho. rewrite IH. replace (d + o =? d) with false by (symmetry; apply Z.eqb_neq; lia).
  reflexivity.
Qed.

(** The walk only records targets strictly right of the loop's cell and
    within [B], with [|del| <= 255], and its offset never goes negative. *)
Lemma copy_multiply_walk_bounds B fd ds o l fd' ds' o' :
  Forall (fun x => 0 <= arg x <= 255) l -> 0 <= o ->
  o + 255 * Z.of_nat (length l) <= B ->
  Forall (fun e => 1 <= snd e <= B /\ Z.abs (fst e) <= 255) ds ->
  copy_multiply_walk fd ds o l = Some (fd', ds', o') ->
  Forall (fun e => 1 <= snd e <= B /\ Z.abs (fst e) <= 255) ds' /\ 0 <= o'.
Proof.
  revert fd ds o. induction l as [|x l IH]; intros fd ds o Hl Ho HB Hds Hw.
  - cbn in Hw. injection Hw as <- <- <-. auto.
  - inversion Hl as [|? ? Hx Hl']; subst. cbn [copy_multiply_walk] in Hw.
    cbn [length] in HB.
    destruct (opcode x); try discriminate Hw.
    + destruct (negb (o =? 0)) eqn:Eo.
      * apply negb_true_iff, Z.eqb_neq in Eo.
        apply (IH _ _ o Hl' Ho ltac:(lia)) in Hw; [exact Hw|].
        apply Forall_app. split; [exact Hds|]. constructor; [cbn; lia | constructor].
      * exact (IH _ ds o Hl' Ho ltac:(lia) Hds Hw).
    + destruct (negb (o =? 0)) eqn:Eo.
      * apply negb_true_iff, Z.eqb_neq in Eo.
        apply (IH _ _ o Hl' Ho ltac:(lia)) in Hw; [exact Hw|].
        apply Forall_app. split; [exact Hds|]. constructor; [cbn; lia | constructor].
      * exact (IH _ ds o Hl' Ho ltac:(lia) Hds Hw).
    + destruct (o >=? arg x) eqn:E; [|discriminate Hw].
      rewrite Z.geb_le in E. exact (IH fd ds (o - arg x) Hl' ltac:(lia) ltac:(lia) Hds Hw).
    + exact (IH fd ds (o + arg x) Hl' ltac:(lia) ltac:(lia) Hds Hw).
Qed.

(** A cell updated by [(v + a) mod 256], then moved by [Y] more. *)
Lemma upd_mod_shift (m : Z -> Z) c a j X Y :
  X = (if j =? c then a else 0) + Y ->
  ((if j =? c then (m c + a) mod 256 else m j) + Y) mod 256 = (m j + X) mod 256.
Proof.
  intros ->. destruct (Z.eqb_spec j c) as [->|Hne].
  - rewrite Zplus_mod_idemp_l. f_equal. lia.
  - reflexivity.
Qed.

Lemma upd_mod_shift_sub (m : Z -> Z) c a j X Y :
  X = (if j =? c then - a else 0) + Y ->
  ((if j =? c then (m c - a) mod 256 else m j) + Y) mod 256 = (m j + X) mod 256.
Proof.
  intros ->. destruct (Z.eqb_spec j c) as [->|Hne].
  - rewrite Zplus_mod_idemp_l. f_equal. lia.
  - reflexivity.
Qed.

Lemma tape_lt_usize : tape_len + 2 <= usize_max.
Proof. unfold tape_len, usize_max. lia. Qed.

Lemma in_tape_true i : 0 <= i < tape_len -> in_tape i = true.
Proof. intros H. unfold in_tape. apply andb_true_iff. rewrite Z.leb_le, Z.ltb_lt. lia. Qed.

Lemma copy_multiply_walk_length fd ds o l fd' ds' o' :
  copy_multiply_walk fd ds o l = Some (fd', ds', o') ->
  (length ds' <= length ds + length l)%nat.
Proof.
  revert fd ds o. induction l as [|x l IH]; intros fd ds o Hw; cbn [copy_multiply_walk] in Hw.
  - injection Hw as <- <- <-. lia.
  - cbn [length]. destruct (opcode x); try discriminate Hw.
    + destruct (negb (o =? 0)); apply IH in Hw; [rewrite length_app in Hw; cbn in Hw|]; lia.
    + destruct (negb (o =? 0)); apply IH in Hw; [rewrite length_app in Hw; cbn in Hw|]; lia.
    + destruct (o >=? arg x); [apply IH in Hw; lia | discriminate Hw].
    + apply IH in Hw. lia.
Qed.

(** Running the loop body from instruction [1 + length p] on, in step with
    the walk of [copy_multiply] over the same instructions. *)
Lemma loop_body_run b p l s D o fd ds fd' ds' o' :
  b = p ++ l -> Forall (fun x => 0 <= arg x <= 255) l ->
  Z.of_nat (length b) < tape_len ->
  ip s = 1 + Z.of_nat (length p) -> dp s = D + o -> 0 <= D -> 0 <= o ->
  D + o + 255 * Z.of_nat (length l) < tape_len -> bytes (mem s) ->
  copy_multiply_walk fd ds o l = Some (fd', ds', o') ->
  exists s', (forall f, run_from (length l + f) (loop_prog b) s = run_from f (loop_prog b) s') /\
    ip s' = 1 + Z.of_nat (length b) /\ dp s' = D + o' /\ bytes (mem s') /\
    (forall j, mem s' j = (mem s j + ((if j =? D then fd' - fd else 0) +
                                       delta_sum D j ds' - delta_sum D j ds)) mod 256) /\
    stdin s' = stdin s /\ stdout s' = stdout s.
Proof.
  pose proof tape_lt_usize as Hus.
  revert p s o fd ds. induction l as [|x l IH];
    intros p s o fd ds Hb Hl Hn Hip Hdp HD Ho Hbd Hm Hw.
  - cbn in Hw. injection Hw as <- <- <-. rewrite app_nil_r in Hb. subst b.
    exists s. split; [reflexivity|]. split; [exact Hip|]. split; [exact Hdp|].
    split; [exact Hm|]. split; [|auto].
    intros j.
    replace ((if j =? D then fd - fd else 0) + delta_sum D j ds - delta_sum D j ds) with 0
      by (destruct (j =? D); lia).
    rewrite Z.add_0_r. symmetry. apply Z.mod_small. specialize (Hm j). lia.
  - pose proof (Forall_inv Hl) as Hx. pose proof (Forall_inv_tail Hl) as Hl'. cbn beta in Hx.
    assert (Hb' : b = (p ++ [x]) ++ l) by (rewrite Hb, <- app_assoc; reflexivity).
    assert (Hlook : loop_prog b !! Z.to_nat (ip s) = Some x).
    { rewrite Hip. replace (Z.to_nat (1 + Z.of_nat (length p))) with (S (length p)) by lia.
      exact (loop_prog_body b p x l Hb). }
    assert (Hpl : Z.of_nat (length b) = Z.of_nat (length p) + 1 + Z.of_nat (length l))
      by (rewrite Hb, length_app; cbn [length]; lia).
    assert (Hlt : ip s < Z.of_nat (length (loop_prog b))) by (rewrite loop_prog_length; lia).
    assert (Hip1 : ip s + 1 <= usize_max) by lia.
    assert (Hip1' : ip s + 1 = 1 + Z.of_nat (length (p ++ [x])))
      by (rewrite length_app; cbn [length]; lia).
    cbn [length] in Hbd. cbn [copy_multiply_walk] in Hw.
    assert (Ht : in_tape (dp s) = true) by (apply in_tape_true; lia).
    destruct (opcode x) eqn:Eop; try discriminate Hw.
    + (* Add *)
      pose proof (step_add _ _ _ Hlook Eop Ht Hip1) as Hs.
      match type of Hs with _ = Done ?t => set (s1 := t) in Hs end.
      assert (Hm1 : bytes (mem s1)).
      { intros k. unfold s1. cbn [mem]. destruct (k =? dp s); [|apply Hm].
        unfold wrapping_add, u8_wrap.
        pose proof (Z.mod_pos_bound (mem s (dp s) + arg x) 256 ltac:(lia)). lia. }
      destruct (negb (o =? 0)) eqn:Eo.
      * apply negb_true_iff, Z.eqb_neq in Eo.
        destruct (IH (p ++ [x]) s1 o fd (ds ++ [(arg x, o)]) Hb' Hl' Hn Hip1' Hdp HD Ho
                    ltac:(lia) Hm1 Hw) as (s' & Hrun & Hip' & Hdp' & Hm' & Hmem & Hin & Hout).
        exists s'. split; [intros f; cbn [length Nat.add];
                            rewrite (run_from_step _ _ _ _ Hlt Hs); apply Hrun|].
        split; [exact Hip'|]. split; [exact Hdp'|]. split; [exact Hm'|].
        split; [|split; [exact Hin | exact Hout]].
        intros j. rewrite Hmem. unfold s1. cbn [mem]. rewrite Hdp. unfold wrapping_add, u8_wrap.
        apply upd_mod_shift. rewrite delta_sum_app. cbn [delta_sum].
        destruct (Z.eqb_spec j D), (Z.eqb_spec j (D + o)), (Z.eqb_spec (D + o) j); lia.
      * apply negb_false_iff, Z.eqb_eq in Eo. subst o.
        destruct (IH (p ++ [x]) s1 0 (fd + arg x) ds Hb' Hl' Hn Hip1' Hdp HD Ho
                    ltac:(lia) Hm1 Hw) as (s' & Hrun & Hip' & Hdp' & Hm' & Hmem & Hin & Hout).
        exists s'. split; [intros f; cbn [length Nat.add];
                            rewrite (run_from_step _ _ _ _ Hlt Hs); apply Hrun|].
        split; [exact Hip'|]. split; [exact Hdp'|]. split; [exact Hm'|].
        split; [|split; [exact Hin | exact Hout]].
        intros j. rewrite Hmem. unfold s1. cbn [mem]. rewrite Hdp. unfold wrapping_add, u8_wrap.
        apply upd_mod_shift.
        destruct (Z.eqb_spec j D), (Z.eqb_spec j (D + 0)); lia.
    + (* Sub *)
      pose proof (step_sub _ _ _ Hlook Eop Ht Hip1) as Hs.
      match type of Hs with _ = Done ?t => set (s1 := t) in Hs end.
      assert (Hm1 : bytes (mem s1)).
      { intros k. unfold s1. cbn [mem]. destruct (k =? dp s); [|apply Hm].
        unfold wrapping_sub, u8_wrap.
        pose proof (Z.mod_pos_bound (mem s (dp s) - arg x) 256 ltac:(lia)). lia. }
      destruct (negb (o =? 0)) eqn:Eo.
      * apply negb_true_iff, Z.eqb_neq in Eo.
        destruct (IH (p ++ [x]) s1 o fd (ds ++ [(- arg x, o)]) Hb' Hl' Hn Hip1' Hdp HD Ho
                    ltac:(lia) Hm1 Hw) as (s' & Hrun & Hip' & Hdp' & Hm' & Hmem & Hin & Hout).
        exists s'. split; [intros f; cbn [length Nat.add];
                            rewrite (run_from_step _ _ _ _ Hlt Hs); apply Hrun|].
        split; [exact Hip'|]. split; [exact Hdp'|]. split; [exact Hm'|].
        split; [|split; [exact Hin | exact Hout]].
        intros j. rewrite Hmem. unfold s1. cbn [mem]. rewrite Hdp. unfold wrapping_sub, u8_wrap.
        apply upd_mod_shift_sub. rewrite delta_sum_app. cbn [delta_sum].
        destruct (Z.eqb_spec j D), (Z.eqb_spec j (D + o)), (Z.eqb_spec (D + o) j); lia.
      * apply negb_false_iff, Z.eqb_eq in Eo. subst o.
        destruct (IH (p ++ [x]) s1 0 (fd - arg x) ds Hb' Hl' Hn Hip1' Hdp HD Ho
                    ltac:(lia) Hm1 Hw) as (s' & Hrun & Hip' & Hdp' & Hm' & Hmem & Hin & Hout).
        exists s'. split; [intros f; cbn [length Nat.add];
                            rewrite (run_from_step _ _ _ _ Hlt Hs); apply Hrun|].
        split; [exact Hip'|]. split; [exact Hdp'|]. split; [exact Hm'|].
        split; [|split; [exact Hin | exact Hout]].
        intros j. rewrite Hmem. unfold s1. cbn [mem]. rewrite Hdp. unfold wrapping_sub, u8_wrap.
        apply upd_mod_shift_sub.
        destruct (Z.eqb_spec j D), (Z.eqb_spec j (D + 0)); lia.
    + (* Left *)
      destruct (o >=? arg x) eqn:E; [|discriminate Hw]. rewrite Z.geb_le in E.
      pose proof (step_left _ _ _ Hlook Eop Hip1) as Hs.
      rewrite Hdp, Z.max_r in Hs by lia.
      destruct (IH (p ++ [x]) (mkState (ip s + 1) (D + o - arg x) (mem s) (stdin s) (stdout s))
                  (o - arg x) fd ds Hb' Hl' Hn Hip1' ltac:(cbn [dp]; lia) HD ltac:(lia)
                  ltac:(lia) Hm Hw) as (s' & Hrun & Hip' & Hdp' & Hm' & Hmem & Hin & Hout).
      exists s'. split; [intros f; cbn [length Nat.add];
                          rewrite (run_from_step _ _ _ _ Hlt Hs); apply Hrun|].
      auto 7.
    + (* Right *)
      pose proof (step_right _ _ _ Hlook Eop Hip1) as Hs.
      rewrite Hdp, Z.min_r in Hs by lia.
      destruct (IH (p ++ [x]) (mkState (ip s + 1) (D + o + arg x) (mem s) (stdin s) (stdout s))
                  (o + arg x) fd ds Hb' Hl' Hn Hip1' ltac:(cbn [dp]; lia) HD ltac:(lia)
                  ltac:(lia) Hm Hw) as (s' & Hrun & Hip' & Hdp' & Hm' & Hmem & Hin & Hout).
      exists s'. split; [intros f; cbn [length Nat.add];
                          rewrite (run_from_step _ _ _ _ Hlt Hs); apply Hrun|].
      auto 7.
Qed.

(** One [CMul]/[CNMul] emitted for the delta [(del, o)]. *)
Lemma step_cm code s del o :
  code !! Z.to_nat (ip s) = Some (cm_instr (del, o)) -> Z.abs del <= 255 ->
  in_tape (dp s) = true -> in_tape (dp s + o) = true -> ip s + 1 <= usize_max ->
  exists s1, step code s = Done s1 /\ ip s1 = ip s + 1 /\ dp s1 = dp s /\
    (forall k, mem s1 k = if k =? dp s + o
                          then (mem s (dp s + o) + mem s (dp s) * del) mod 256
                          else mem s k) /\
    stdin s1 = stdin s /\ stdout s1 = stdout s.
Proof.
  intros Hx Hd Ht Ht' Hip. destruct (del <? 0) eqn:E.
  - eexists. split.
    { apply step_cnmul; [exact Hx | cbn [cm_instr opcode]; rewrite E; reflexivity
                        | exact Ht | exact Ht' | exact Hip]. }
    split; [reflexivity|]. split; [reflexivity|]. split; [|split; reflexivity].
    intros k. cbn [mem cm_instr off arg]. rewrite E.
    destruct (k =? dp s + o); [|reflexivity]. unfold wrapping_sub, wrapping_mul, u8_wrap.
    apply Z.ltb_lt in E. rewrite (Z.mod_small (- del)) by lia.
    rewrite Zminus_mod_idemp_r. f_equal. ring.
  - eexists. split.
    { apply step_cmul; [exact Hx | cbn [cm_instr opcode]; rewrite E; reflexivity
                       | exact Ht | exact Ht' | exact Hip]. }
    split; [reflexivity|]. split; [reflexivity|]. split; [|split; reflexivity].
    intros k. cbn [mem cm_instr off arg]. rewrite E.
    destruct (k =? dp s + o); [|reflexivity]. unfold wrapping_add, wrapping_mul, u8_wrap.
    apply Z.ltb_ge in E. rewrite (Z.mod_small del) by lia.
    rewrite Zplus_mod_idemp_r. reflexivity.
Qed.

(** Running the [CMul]/[CNMul] sequence of [copy_multiply] from the one
    emitted for the first delta of [ds] on. *)
Lemma cmuls_run dsall p ds s D :
  dsall = p ++ ds ->
  Forall (fun e => 1 <= snd e /\ Z.abs (fst e) <= 255 /\ D + snd e < tape_len) ds ->
  Z.of_nat (length dsall) < tape_len ->
  ip s = Z.of_nat (length p) -> dp s = D -> 0 <= D < tape_len -> bytes (mem s) ->
  exists s', (forall f, run_from (length ds + f) (map cm_instr dsall ++ [mkInstr Set_ 0 0]) s =
                        run_from f (map cm_instr dsall ++ [mkInstr Set_ 0 0]) s') /\
    ip s' = Z.of_nat (length dsall) /\ dp s' = D /\
    (forall j, mem s' j = (mem s j + mem s D * delta_sum D j ds) mod 256) /\
    stdin s' = stdin s /\ stdout s' = stdout s.
Proof.
  pose proof tape_lt_usize as Hus.
  revert p s. induction ds as [|[del o] ds IH]; intros p s Hall Hds Hn Hip Hdp HD Hm.
  - exists s. split; [intros f; reflexivity|]. rewrite app_nil_r in Hall. subst dsall.
    split; [exact Hip|]. split; [exact Hdp|]. split; [|auto].
    intros j. cbn [delta_sum]. rewrite Z.mul_0_r, Z.add_0_r. symmetry. apply Z.mod_small.
    specialize (Hm j). lia.
  - pose proof (Forall_inv Hds) as He. pose proof (Forall_inv_tail Hds) as Hds'.
    cbn [fst snd] in He.
    assert (Hall' : dsall = (p ++ [(del, o)]) ++ ds) by (rewrite Hall, <- app_assoc; reflexivity).
    assert (Hpl : Z.of_nat (length dsall) = Z.of_nat (length p) + 1 + Z.of_nat (length ds))
      by (rewrite Hall, length_app; cbn [length]; lia).
    assert (Hlook : (map cm_instr dsall ++ [mkInstr Set_ 0 0]) !! Z.to_nat (ip s) =
                    Some (cm_instr (del, o))).
    { rewrite Hip, Nat2Z.id, Hall, map_app, <- app_assoc. cbn [map app].
      rewrite lookup_app_r by (rewrite length_map; lia). rewrite length_map, Nat.sub_diag.
      reflexivity. }
    assert (Hlt : ip s < Z.of_nat (length (map cm_instr dsall ++ [mkInstr Set_ 0 0])))
      by (rewrite length_app, length_map; cbn [length]; lia).
    destruct (step_cm _ s del o Hlook ltac:(lia) ltac:(apply in_tape_true; lia)
                ltac:(apply in_tape_true; lia) ltac:(lia))
      as (s1 & Hs & Hip1 & Hdp1 & Hmem1 & Hin1 & Hout1).
    assert (Hm1 : bytes (mem s1)).
    { intros k. rewrite Hmem1. destruct (k =? dp s + o); [|apply Hm].
      pose proof (Z.mod_pos_bound (mem s (dp s + o) + mem s (dp s) * del) 256 ltac:(lia)). lia. }
    assert (HD1 : mem s1 D = mem s D).
    { rewrite Hmem1, Hdp. replace (D =? D + o) with false by (symmetry; apply Z.eqb_neq; lia).
      reflexivity. }
    destruct (IH (p ++ [(del, o)]) s1 Hall' Hds' Hn
                ltac:(rewrite Hip1, Hip, length_app; cbn [length]; lia)
                ltac:(rewrite Hdp1; exact Hdp) HD Hm1)
      as (s' & Hrun & Hip' & Hdp' & Hmem' & Hin' & Hout').
    exists s'. split.
    { intros f. cbn [length Nat.add]. rewrite (run_from_step _ _ _ _ Hlt Hs). apply Hrun. }
    split; [exact Hip'|]. split; [exact Hdp'|]. split; [|split; congruence].
    intros j. rewrite Hmem', HD1, Hmem1, Hdp. apply upd_mod_shift. cbn [delta_sum].
    destruct (Z.eqb_spec j (D + o)), (Z.eqb_spec (D + o) j); nia.
Qed.

(** The loop run from its first body instruction while its cell holds
    [S c]: [S c] whole iterations, then the [JNZ] falls through. *)
Lemma loop_iterations b ds c s :
  Forall (fun x => 0 <= arg x <= 255) b ->
  Forall (fun e => 1 <= snd e) ds ->
  copy_multiply_walk 0 [] 0 b = Some (-1, ds, 0) ->
  ip s = 1 -> 0 <= dp s -> dp s + 255 * Z.of_nat (length b) < tape_len -> bytes (mem s) ->
  mem s (dp s) = Z.of_nat (S c) -> (S c <= 255)%nat ->
  exists f s', run_from f (loop_prog b) s = Halted s' /\ dp s' = dp s /\
    (forall j, mem s' j = (mem s j + Z.of_nat (S c) *
                            ((if j =? dp s then -1 else 0) + delta_sum (dp s) j ds)) mod 256) /\
    stdin s' = stdin s /\ stdout s' = stdout s.
Proof.
  pose proof tape_lt_usize as Hus.
  intros Hb Hds Hw. revert s. induction c as [|c IH]; intros s Hip HD Hbd Hm Hc Hcr.
  all: destruct (loop_body_run b [] b s (dp s) 0 0 [] (-1) ds 0 eq_refl Hb ltac:(lia)
                   ltac:(rewrite Hip; reflexivity) ltac:(lia) HD ltac:(lia) ltac:(lia) Hm Hw)
         as (s1 & Hrun1 & Hip1 & Hdp1 & Hm1 & Hmem1 & Hin1 & Hout1).
  all: rewrite Z.add_0_r in Hdp1.
  all: assert (HX1 : forall j, mem s1 j = (mem s j + ((if j =? dp s then -1 else 0) +
                                                       delta_sum (dp s) j ds)) mod 256)
         by (intros j; rewrite Hmem1; cbn [delta_sum]; f_equal; destruct (j =? dp s); lia).
  all: assert (Hlook : loop_prog b !! Z.to_nat (ip s1) =
                       Some (mkInstr JNZ 0 (- (Z.of_nat (length b) + 1))))
         by (rewrite Hip1; replace (Z.to_nat _) with (S (length b)) by lia;
             apply loop_prog_jnz).
  all: assert (Hj : jump_target (ip s1) (- (Z.of_nat (length b) + 1)) = 0)
         by (unfold jump_target; rewrite Hip1;
             replace (1 + Z.of_nat (length b) + - (Z.of_nat (length b) + 1)) with 0 by lia;
             reflexivity).
  all: assert (Hlt : ip s1 < Z.of_nat (length (loop_prog b)))
         by (rewrite loop_prog_length; lia).
  all: pose proof (step_jnz _ _ _ Hlook eq_refl ltac:(rewrite Hdp1; apply in_tape_true; lia)
                     ltac:(lia) ltac:(cbn [off]; rewrite Hj; lia)) as Hs.
  all: cbn [off] in Hs; rewrite Hj, Hdp1 in Hs.
  all: assert (HD1 : mem s1 (dp s) = mem s (dp s) - 1)
         by (rewrite HX1, Z.eqb_refl, (delta_sum_self _ _ Hds), Hc;
             rewrite Z.mod_small by lia; lia).
  all: rewrite HD1, Hc in Hs.
  - (* the cell reaches 0: the [JNZ] falls through *)
    replace (Z.of_nat 1 - 1 =? 0) with true in Hs by reflexivity.
    exists (length b + 1)%nat.
    eexists. split.
    { rewrite Hrun1, (run_from_step _ _ _ _ Hlt Hs). apply run_from_halt.
      cbn [ip]. rewrite loop_prog_length. lia. }
    cbn [dp mem stdin stdout]. split; [reflexivity|]. split; [|split; assumption].
    intros j. rewrite HX1. f_equal. lia.
  - (* the cell is still nonzero: back to the first body instruction *)
    replace (Z.of_nat (S (S c)) - 1 =? 0) with false in Hs by (symmetry; apply Z.eqb_neq; lia).
    match type of Hs with _ = Done ?t => set (s2 := t) in Hs end.
    destruct (IH s2 eq_refl ltac:(unfold s2; cbn [dp]; lia) ltac:(unfold s2; cbn [dp]; lia) Hm1
                ltac:(unfold s2; cbn [dp mem]; rewrite HD1, Hc; lia) ltac:(lia))
      as (f & s' & Hrun & Hdp' & Hmem' & Hin' & Hout').
    exists (length b + S f)%nat, s'. split.
    { rewrite Hrun1, (run_from_step _ _ _ _ Hlt Hs). exact Hrun. }
    unfold s2 in Hdp', Hmem', Hin', Hout'. cbn [dp mem stdin stdout] in Hdp', Hmem', Hin', Hout'.
    split; [exact Hdp'|]. split; [|split; congruence].
    intros j. rewrite Hmem', HX1, Zplus_mod_idemp_l. f_equal.
    rewrite (Nat2Z.inj_succ (S c)). ring.
Qed.

(** [copy_multiply] is sound. If it rewrites the loop [[ b ]] (placed at position 0, with
    the jump offsets [compile] gives it), then from any state at the loop's
    [JZ] whose cells are bytes and whose tape holds [255 * |b|] more cells
    right of [dp], the loop and its rewrite both run to completion. They end
    with the same [dp], the same tape, and the same input and output. *)
Theorem copy_multiply_sound opts b R s :
  Forall (fun x => 0 <= arg x <= 255) b ->
  copy_multiply (loop_prog b) 0 opts = Some R ->
  ip s = 0 -> 0 <= dp s -> dp s + 255 * Z.of_nat (length b) < tape_len -> bytes (mem s) ->
  exists f1 f2 s1 s2,
    run_from f1 (loop_prog b) s = Halted s1 /\ run_from f2 R s = Halted s2 /\
    dp s1 = dp s2 /\ (forall i, mem s1 i = mem s2 i) /\
    stdin s1 = stdin s2 /\ stdout s1 = stdout s2.
Proof.
  pose proof tape_lt_usize as Hus.
  intros Hb HR Hip HD Hbd Hm.
  unfold copy_multiply in HR. rewrite body_loop_prog in HR.
  destruct (negb (loop_copy_multiply opts)); [discriminate HR|].
  destruct (length (loop_prog b) <=? 0 + 2)%nat; [discriminate HR|].
  destruct (copy_multiply_walk 0 [] 0 b) as [[[fd ds] o]|] eqn:Hw; [|discriminate HR].
  destruct (negb (o =? 0)) eqn:Eo; [discriminate HR|].
  apply negb_false_iff, Z.eqb_eq in Eo. subst o.
  destruct (negb (fd =? -1)) eqn:Ef; [discriminate HR|].
  apply negb_false_iff, Z.eqb_eq in Ef. subst fd.
  injection HR as <-.
  destruct (copy_multiply_walk_bounds (255 * Z.of_nat (length b)) 0 [] 0 b (-1) ds 0 Hb
              ltac:(lia) ltac:(lia) ltac:(constructor) Hw) as [Hds _].
  pose proof (copy_multiply_walk_length _ _ _ _ _ _ _ Hw) as Hlen. cbn [length] in Hlen.
  (* the rewrite: the [CMul]s, then [Set 0] *)
  destruct (cmuls_run ds [] ds s (dp s) eq_refl
              ltac:(eapply Forall_impl; [exact Hds | cbn beta; intros e He; lia])
              ltac:(lia) Hip eq_refl ltac:(lia) Hm)
    as (s' & Hrun' & Hip' & Hdp' & Hmem' & Hin' & Hout').
  assert (HlookS : (map cm_instr ds ++ [mkInstr Set_ 0 0]) !! Z.to_nat (ip s') =
                   Some (mkInstr Set_ 0 0)).
  { rewrite Hip', Nat2Z.id. rewrite lookup_app_r by (rewrite length_map; lia).
    rewrite length_map, Nat.sub_diag. reflexivity. }
  assert (HltS : ip s' < Z.of_nat (length (map cm_instr ds ++ [mkInstr Set_ 0 0])))
    by (rewrite length_app, length_map; cbn [length]; lia).
  pose proof (step_set _ _ _ HlookS eq_refl ltac:(rewrite Hdp'; apply in_tape_true; lia)
                ltac:(lia)) as HsS.
  match type of HsS with _ = Done ?t => set (s2 := t) in HsS end.
  assert (HrunR : run_from (length ds + 1) (map cm_instr ds ++ [mkInstr Set_ 0 0]) s = Halted s2).
  { rewrite Hrun', (run_from_step _ _ _ _ HltS HsS). apply run_from_halt.
    unfold s2. cbn [ip]. rewrite length_app, length_map. cbn [length]. lia. }
  (* the loop: its [JZ] first *)
  assert (Hlook0 : loop_prog b !! Z.to_nat (ip s) =
                   Some (mkInstr JZ 0 (Z.of_nat (length b) + 1)))
    by (rewrite Hip; apply loop_prog_jz).
  assert (Hj : jump_target (ip s) (Z.of_nat (length b) + 1) = Z.of_nat (length b) + 1)
    by (unfold jump_target; rewrite Hip, Z.add_0_l; apply Z.mod_small; unfold usize_max in Hus; lia).
  assert (Hlt0 : ip s < Z.of_nat (length (loop_prog b))) by (rewrite loop_prog_length; lia).
  pose proof (step_jz _ _ _ Hlook0 eq_refl ltac:(apply in_tape_true; lia) ltac:(lia)
                ltac:(cbn [off]; rewrite Hj; lia)) as Hs0.
  cbn [off] in Hs0. rewrite Hj in Hs0.
  pose proof (Hm (dp s)) as HmD.
  destruct (Z.eq_dec (mem s (dp s)) 0) as [H0|H0].
  - (* the cell is 0: the [JZ] jumps past the loop *)
    rewrite H0 in Hs0. replace (0 =? 0) with true in Hs0 by reflexivity.
    eexists 1%nat, (length ds + 1)%nat, _, s2. split.
    { rewrite (run_from_step _ _ _ _ Hlt0 Hs0). apply run_from_halt.
      cbn [ip]. rewrite loop_prog_length. lia. }
    split; [exact HrunR|]. unfold s2. cbn [dp mem stdin stdout].
    split; [symmetry; exact Hdp'|]. split; [|split; congruence].
    intros i. rewrite Hdp'. destruct (Z.eqb_spec i (dp s)) as [->|Hne]; [exact H0|].
    rewrite Hmem', H0, Z.mul_0_l, Z.add_0_r, Z.mod_small; [reflexivity|]. specialize (Hm i). lia.
  - (* the cell is [S c]: [S c] iterations *)
    replace (mem s (dp s) =? 0) with false in Hs0 by (symmetry; apply Z.eqb_neq; exact H0).
    match type of Hs0 with _ = Done ?t => set (s1 := t) in Hs0 end.
    destruct (loop_iterations b ds (Z.to_nat (mem s (dp s)) - 1) s1 Hb
                ltac:(eapply Forall_impl; [exact Hds | cbn beta; intros e He; lia]) Hw
                ltac:(unfold s1; cbn [ip]; lia) ltac:(unfold s1; cbn [dp]; lia)
                ltac:(unfold s1; cbn [dp]; lia) Hm
                ltac:(unfold s1; cbn [dp mem]; lia) ltac:(lia))
      as (f & s'' & Hrun & Hdp'' & Hmem'' & Hin'' & Hout'').
    unfold s1 in Hdp'', Hmem'', Hin'', Hout''. cbn [dp mem stdin stdout] in Hdp'', Hmem'', Hin'', Hout''.
    exists (S f), (length ds + 1)%nat, s'', s2. split.
    { rewrite (run_from_step _ _ _ _ Hlt0 Hs0). exact Hrun. }
    split; [exact HrunR|]. unfold s2. cbn [dp mem stdin stdout].
    split; [congruence|]. split; [|split; congruence].
    intros i. rewrite Hmem'', Hdp'.
    replace (Z.of_nat (S (Z.to_nat (mem s (dp s)) - 1))) with (mem s (dp s)) by lia.
    destruct (Z.eqb_spec i (dp s)) as [->|Hne].
    + assert (Hds1 : Forall (fun e => 1 <= snd e) ds)
        by (eapply Forall_impl; [exact Hds | cbn beta; intros e He; lia]).
      rewrite (delta_sum_self _ _ Hds1).
      replace (mem s (dp s) + mem s (dp s) * (-1 + 0)) with 0 by ring. reflexivity.
    + rewrite Hmem'. f_equal; ring.
Qed.

Lemma copy_multiply_sound_witness :
  exists f1 f2 s1 s2,
    run_from f1 (loop_prog [mkInstr Sub 1 0; mkInstr Right 1 0; mkInstr Add 2 0; mkInstr Left 1 0])
      (mkState 0 0 (fun i => if i =? 0 then 3 else 0) [] []) = Halted s1 /\
    run_from f2 [mkInstr CMul 2 1; mkInstr Set_ 0 0]
      (mkState 0 0 (fun i => if i =? 0 then 3 else 0) [] []) = Halted s2 /\
    dp s1 = dp s2 /\ (forall i, mem s1 i = mem s2 i) /\
    stdin s1 = stdin s2 /\ stdout s1 = stdout s2.
Proof.
  apply (copy_multiply_sound default_options).
  - repeat constructor; cbn; lia.
  - reflexivity.
  - reflexivity.
  - cbn. lia.
  - unfold tape_len. cbn. lia.
  - intros i. cbn. destruct (i =? 0); lia.
Defined.
